(** * avlTree.h: the container of src/avlTree.h, embedded over an explicit store

    The header declares [Node], [Iterator] and [AvlTree].  The member
    functions are written against a doubly linked chain: they reach the two
    links of a node as [next] and [previous], the first node of a container
    as [head] and the owner recorded in an iterator as [listPtr], while the
    classes declare these members as [left], [right], [root] and
    [avlTreePtr].  The constructor [Node(object, left, right)] is called as
    [Node(data, next, previous)] at every call site, which fixes the
    correspondence used below: [next] is the member declared [left],
    [previous] the member declared [right].

    Nodes live in a store indexed by addresses; [nullptr] is [None].
    Dereferencing an address that holds no live node, and a loop that does
    not come to an end, are reported as [Undefined]. *)

From Stdlib Require Import ZArith Lia.
From stdpp Require Import base option list gmap.

Local Open Scope Z_scope.

(** ** Data model *)

Definition loc := positive.
Definition addr := positive.
Definition ptr := option loc.

Inductive exn : Type :=
| ElementNotFound
| IllegealOperationException.

Section Container.

Context {T : Type}.

(** class Node: the three data members, in declaration order. *)
Record Node : Type := mkNode {
  left : ptr;
  right : ptr;
  data : T
}.

(** Node<T>::Node(object, left, right) (lines 180-183). *)
Definition Node_ctor (object : T) (l r : ptr) : Node :=
  {| left := l; right := r; data := object |}.

(** The names under which the member functions read and write the links. *)
Definition next (n : Node) : ptr := left n.
Definition previous (n : Node) : ptr := right n.

Definition with_next (n : Node) (p : ptr) : Node :=
  {| left := p; right := right n; data := data n |}.
Definition with_previous (n : Node) (p : ptr) : Node :=
  {| left := left n; right := p; data := data n |}.
Definition with_data (n : Node) (d : T) : Node :=
  {| left := left n; right := right n; data := d |}.

(** class Iterator: current node and owning container. *)
Record Iterator : Type := mkIterator {
  node : ptr;
  avlTreePtr : option addr
}.

Definition listPtr (it : Iterator) : option addr := avlTreePtr it.

(** The store: live nodes, and for every live container object the value of
    its single data member (declared [root], accessed as [head]). *)
Record Store : Type := mkStore {
  nodes : gmap loc Node;
  heads : gmap addr ptr
}.

Inductive outcome (A : Type) : Type :=
| Ret (a : A) (s : Store)
| Throw (e : exn) (s : Store)
| Undefined.

Global Arguments Ret {A} a s.
Global Arguments Throw {A} e s.
Global Arguments Undefined {A}.

(** Computations over the store that may throw. *)
Definition M (A : Type) : Type := Store -> outcome A.

Definition ret {A} (a : A) : M A := fun s => Ret a s.
Definition throw {A} (e : exn) : M A := fun s => Throw e s.
Definition undefined {A} : M A := fun _ => Undefined.

Definition bind {A B} (c : M A) (k : A -> M B) : M B :=
  fun s =>
    match c s with
    | Ret a s' => k a s'
    | Throw e s' => Throw e s'
    | Undefined => Undefined
    end.

Notation "'do' x <- c ; k" := (bind c (fun x => k))
  (at level 10, x name, c at level 100, k at level 200).
Notation "c ;; k" := (bind c (fun _ => k))
  (at level 100, k at level 200, right associativity).

(** *** Primitive accesses *)

(** this->head *)
Definition get_head (this : addr) : M ptr :=
  fun s => match heads s !! this with
           | Some p => Ret p s
           | None => Undefined
           end.

(** this->head = p *)
Definition set_head (this : addr) (p : ptr) : M unit :=
  fun s => match heads s !! this with
           | Some _ => Ret tt (mkStore (nodes s) (<[this := p]> (heads s)))
           | None => Undefined
           end.

(** *l, for a node address l *)
Definition load (l : loc) : M Node :=
  fun s => match nodes s !! l with
           | Some n => Ret n s
           | None => Undefined
           end.

(** l->next = p *)
Definition store_next (l : loc) (p : ptr) : M unit :=
  fun s => match nodes s !! l with
           | Some n => Ret tt (mkStore (<[l := with_next n p]> (nodes s)) (heads s))
           | None => Undefined
           end.

(** l->previous = p *)
Definition store_previous (l : loc) (p : ptr) : M unit :=
  fun s => match nodes s !! l with
           | Some n => Ret tt (mkStore (<[l := with_previous n p]> (nodes s)) (heads s))
           | None => Undefined
           end.

(** l->data = d *)
Definition store_data (l : loc) (d : T) : M unit :=
  fun s => match nodes s !! l with
           | Some n => Ret tt (mkStore (<[l := with_data n d]> (nodes s)) (heads s))
           | None => Undefined
           end.

(** new Node<T>(object, l, r): an address that holds no live node. *)
Definition new_Node (object : T) (l r : ptr) : M loc :=
  fun s => let a := fresh (dom (nodes s)) in
           Ret a (mkStore (<[a := Node_ctor object l r]> (nodes s)) (heads s)).

(** delete l *)
Definition delete_Node (l : loc) : M unit :=
  fun s => match nodes s !! l with
           | Some _ => Ret tt (mkStore (delete l (nodes s)) (heads s))
           | None => Undefined
           end.

(** An upper bound on the number of iterations of a loop over a chain of
    distinct live nodes. *)
Definition fuel_of (s : Store) : nat := S (size (nodes s)).

Definition with_fuel {A} (body : nat -> M A) : M A :=
  fun s => body (fuel_of s) s.

(** ** Node *)

(** Node<T>::swapNodes (lines 185-190), [this] at address [self]. *)
Definition swapNodes (self : loc) (other : loc) : M unit :=
  do n <- load other;
  let temp := data n in
  do me <- load self;
  store_data other (data me);;
  store_data self temp.

(** ** Iterator *)

(** Iterator<T>::Iterator(node, avlTree) (lines 195-198). *)
Definition Iterator_ctor (nd : ptr) (avlTree : option addr) : Iterator :=
  {| node := nd; avlTreePtr := avlTree |}.

(** Iterator<T>::operator--(int) (lines 200-208).  The result pairs the
    value returned with the new value of the iterator stepped; both are
    [*this] after the assignment. *)
Definition Iterator_decr (this : Iterator) : M (Iterator * Iterator) :=
  match node this with
  | None => throw IllegealOperationException
  | Some iterNode =>
      do n <- load iterNode;
      let this' := {| node := next n; avlTreePtr := avlTreePtr this |} in
      ret (this', this')
  end.

(** Iterator<T>::operator*() (lines 217-224): the address dereferenced. *)
Definition Iterator_deref (this : Iterator) : M T :=
  match node this with
  | None => throw ElementNotFound
  | Some iterNode => do n <- load iterNode; ret (data n)
  end.

(** Iterator<T>::operator== and operator!= (lines 226-234). *)
Definition Iterator_eq (this iter : Iterator) : bool :=
  bool_decide (node this = node iter) && bool_decide (listPtr this = listPtr iter).

Definition Iterator_neq (this iter : Iterator) : bool :=
  negb (Iterator_eq this iter).

(** ** AvlTree *)

(** AvlTree<T>::AvlTree() (lines 239-242), for an object placed at [this]. *)
Definition AvlTree_ctor (this : addr) : M unit :=
  fun s => Ret tt (mkStore (nodes s) (<[this := None]> (heads s))).

(** AvlTree<T>::begin (lines 280-284). *)
Definition begin_ (this : addr) : M Iterator :=
  do h <- get_head this;
  ret (Iterator_ctor h (Some this)).

(** AvlTree<T>::end (lines 286-290). *)
Definition end_ (this : addr) : M Iterator :=
  ret (Iterator_ctor None (Some this)).

(** The loop of lines 303-305: follow [next] to the node that has none. *)
Fixpoint last_node (fuel : nat) (nodeIter : loc) : M loc :=
  match fuel with
  | O => undefined
  | S fuel' =>
      do n <- load nodeIter;
      match next n with
      | None => ret nodeIter
      | Some nx => last_node fuel' nx
      end
  end.

(** AvlTree<T>::insert (lines 292-321). *)
Definition insert (this : addr) (d : T) (iterator : Iterator) : M unit :=
  if negb (bool_decide (listPtr iterator = Some this)) then throw ElementNotFound
  else
    match node iterator with
    | None =>
        do h <- get_head this;
        match h with
        | None =>
            do newNode <- new_Node d None None;
            set_head this (Some newNode)
        | Some first =>
            do nodeIter <- with_fuel (fun fuel => last_node fuel first);
            do newNode <- new_Node d None (Some nodeIter);
            store_next nodeIter (Some newNode)
        end
    | Some iteratorNode =>
        do n <- load iteratorNode;
        let iteratorPrev := previous n in
        do newNode <- new_Node d (Some iteratorNode) iteratorPrev;
        store_previous iteratorNode (Some newNode);;
        match iteratorPrev with
        | Some p => store_next p (Some newNode)
        | None => set_head this (Some newNode)
        end
    end.

(** AvlTree<T>::remove (lines 323-349). *)
Definition remove (this : addr) (iterator : Iterator) : M unit :=
  do h <- get_head this;
  if bool_decide (h = None) || bool_decide (node iterator = None)
  then throw ElementNotFound
  else if negb (bool_decide (listPtr iterator = Some this))
          || bool_decide (listPtr iterator = None)
  then throw ElementNotFound
  else
    match node iterator with
    | None => throw ElementNotFound
    | Some nd =>
        (do n <- load nd;
         match previous n with
         | Some prev => store_next prev (next n)
         | None => ret tt
         end);;
        (do n <- load nd;
         match next n with
         | Some nx => store_previous nx (previous n)
         | None => ret tt
         end);;
        (do n <- load nd;
         match previous n with
         | None => set_head this (next n)
         | Some _ => ret tt
         end);;
        delete_Node nd
    end.

(** The loop of the copy constructor and of the assignment (lines 249-253
    and 274-277): append the data of every node of the source chain. *)
Fixpoint append_all (fuel : nat) (this : addr) (nodeIter : ptr) : M unit :=
  match nodeIter with
  | None => ret tt
  | Some l =>
      match fuel with
      | O => undefined
      | S fuel' =>
          do n <- load l;
          do e <- end_ this;
          insert this (data n) e;;
          do n' <- load l;
          append_all fuel' this (next n')
      end
  end.

(** AvlTree<T>::AvlTree(AvlTree&) (lines 244-254), for an object placed at
    [this], copying the object at [avlTree] (read as [list] in the body). *)
Definition AvlTree_copy_ctor (this : addr) (avlTree : addr) : M unit :=
  AvlTree_ctor this;;
  do src <- get_head avlTree;
  with_fuel (fun fuel => append_all fuel this src).

(** The loop of lines 270-272: remove the first node until none is left. *)
Fixpoint clear (fuel : nat) (this : addr) : M unit :=
  match fuel with
  | O => undefined
  | S fuel' =>
      do h <- get_head this;
      match h with
      | None => ret tt
      | Some _ =>
          do b <- begin_ this;
          remove this b;;
          clear fuel' this
      end
  end.

(** The two loops of AvlTree<T>::operator= (lines 270-277): empty the
    destination, then append the data of every node of the source.  The
    parameter is named [avlTree] and read as [list]. *)
Definition AvlTree_assign_loops (this : addr) (avlTree : addr) : M unit :=
  with_fuel (fun fuel => clear fuel this);;
  do src <- get_head avlTree;
  with_fuel (fun fuel => append_all fuel this src).

(** AvlTree<T>::operator= (lines 265-278).  The self-assignment returns
    [*this] (line 268).  On the other path control reaches the closing
    brace of a function that returns AvlTree<T>& without a return
    statement: the behaviour is undefined from there. *)
Definition AvlTree_assign (this : addr) (avlTree : addr) : M unit :=
  if bool_decide (this = avlTree) then ret tt
  else
    AvlTree_assign_loops this avlTree;;
    undefined.

(** The loop of the destructor (lines 259-262): remove the node the
    iterator stands at and take begin again, until it stands at none. *)
Fixpoint destroy_loop (fuel : nat) (this : addr) (iter : Iterator) : M unit :=
  match node iter with
  | None => ret tt
  | Some _ =>
      match fuel with
      | O => undefined
      | S fuel' =>
          remove this iter;;
          do b <- begin_ this;
          destroy_loop fuel' this b
      end
  end.

(** AvlTree<T>::~AvlTree (lines 256-263): the body of the destructor. *)
Definition AvlTree_dtor (this : addr) : M unit :=
  do iter <- begin_ this;
  with_fuel (fun fuel => destroy_loop fuel this iter).

(** The postfix increment (lines 210-215) copies the iterator, applies the
    prefix increment to [*this] and returns the copy.  The prefix increment
    is not part of the header; [find] and the postfix increment are stated
    over an arbitrary one. *)
Section Increment.

Variable prefix_incr : Iterator -> M Iterator.

(** Iterator<T>::operator++(int): value returned, new value of [*this]. *)
Definition Iterator_incr (this : Iterator) : M (Iterator * Iterator) :=
  let iter := this in
  do this' <- prefix_incr this;
  ret (iter, this').

(** The loop of AvlTree<T>::find (lines 355-360). *)
Fixpoint find_loop (fuel : nat) (this : addr) (predicate : T -> bool)
    (iter : Iterator) : M Iterator :=
  match fuel with
  | O => undefined
  | S fuel' =>
      do e <- end_ this;
      if Iterator_neq iter e then
        match node iter with
        | None => undefined
        | Some iterNode =>
            do n <- load iterNode;
            if predicate (data n) then ret iter
            else
              do r <- Iterator_incr iter;
              find_loop fuel' this predicate (snd r)
        end
      else ret iter
  end.

(** AvlTree<T>::find (lines 351-362). *)
Definition find (this : addr) (predicate : T -> bool) : M Iterator :=
  do iter <- begin_ this;
  with_fuel (fun fuel => find_loop fuel this predicate iter).

End Increment.

End Container.

Global Arguments Node : clear implicits.
Global Arguments Store : clear implicits.
Global Arguments M : clear implicits.

(** The notations of the section, for the statements that follow. *)
Notation "'do' x <- c ; k" := (bind c (fun x => k))
  (at level 10, x name, c at level 100, k at level 200).
Notation "c ;; k" := (bind c (fun _ => k))
  (at level 100, k at level 200, right associativity).

(** ** The chain of a container

    [seg h before ls after]: the nodes listed in [ls], with the data listed,
    are live in [h] and linked in that order; the first has [before] as its
    [previous] link and the last has [after] as its [next] link. *)

Section Representation.

Context {T : Type}.

Definition first_of (ls : list (loc * T)) (after : ptr) : ptr :=
  match ls with
  | [] => after
  | x :: _ => Some x.1
  end.

Definition last_of (before : ptr) (ls : list (loc * T)) : ptr :=
  match last ls with
  | None => before
  | Some x => Some x.1
  end.

Fixpoint seg (h : gmap loc (Node T)) (before : ptr) (ls : list (loc * T))
    (after : ptr) : Prop :=
  match ls with
  | [] => True
  | x :: ls' =>
      h !! x.1 = Some (mkNode (first_of ls' after) before x.2)
      ∧ seg h (Some x.1) ls' after
  end.

(** The container at [this] holds exactly the chain [ls]. *)
Definition is_list (s : Store T) (this : addr) (ls : list (loc * T)) : Prop :=
  heads s !! this = Some (first_of ls None)
  ∧ seg (nodes s) None ls None
  ∧ NoDup ls.*1.

(** What an operation on the container at [this], whose chain is [ls],
    leaves alone: the other container objects and the other live nodes. *)
Definition frame (this : addr) (ls : list (loc * T)) (s s' : Store T) : Prop :=
  (∀ a, a ≠ this → heads s' !! a = heads s !! a)
  ∧ (∀ l, l ∈ dom (nodes s) → l ∉ ls.*1 → nodes s' !! l = nodes s !! l).

(** The sequence of stored values in chain order, read off the store by
    following [next] from a node. *)
Fixpoint walk (fuel : nat) (h : gmap loc (Node T)) (p : ptr) : list T :=
  match fuel, p with
  | S fuel', Some l =>
      match h !! l with
      | Some n => data n :: walk fuel' h (next n)
      | None => []
      end
  | _, _ => []
  end.

Definition contents (s : Store T) (this : addr) : list T :=
  match heads s !! this with
  | Some p => walk (fuel_of s) (nodes s) p
  | None => []
  end.

(** The iterator that [begin] followed by [i] forward moves along [next]
    reaches in the chain [ls]; past the last node it is [end]. *)
Definition iterator_at (this : addr) (ls : list (loc * T)) (i : nat) : Iterator :=
  Iterator_ctor (fst <$> ls !! i) (Some this).

(** The node reached from [p] by following [next] [i] times. *)
Fixpoint nth_node (h : gmap loc (Node T)) (p : ptr) (i : nat) : ptr :=
  match i with
  | O => p
  | S i' =>
      match p with
      | Some l =>
          match h !! l with
          | Some n => nth_node h (next n) i'
          | None => None
          end
      | None => None
      end
  end.

(** The iterator of the container at [this] that stands at the [i]-th node
    of its chain, or at the end when the chain is shorter. *)
Definition iterator_nth (s : Store T) (this : addr) (i : nat) : Iterator :=
  Iterator_ctor
    (match heads s !! this with
     | Some p => nth_node (nodes s) p i
     | None => None
     end)
    (Some this).

(** Calls on a container, with the iterator given by its position. *)
Inductive op : Type :=
| Insert (v : T) (i : nat)
| Remove (i : nat).

Definition apply_op (this : addr) (o : op) : M T unit :=
  fun s =>
    match o with
    | Insert v i => insert this v (iterator_nth s this i) s
    | Remove i => remove this (iterator_nth s this i) s
    end.

(** The store after a sequence of calls.  A call that throws is caught by
    the caller and the sequence goes on from the store at the throw. *)
Fixpoint apply_ops (this : addr) (os : list op) (s : Store T) : option (Store T) :=
  match os with
  | [] => Some s
  | o :: os' =>
      match apply_op this o s with
      | Ret _ s' => apply_ops this os' s'
      | Throw _ s' => apply_ops this os' s'
      | Undefined => None
      end
  end.

(** The store in which the container at [this] has just been constructed
    empty and nothing else is live. *)
Definition fresh_store (this : addr) : Store T :=
  mkStore ∅ (<[this := None]> ∅).

Definition reachable (this : addr) (s : Store T) : Prop :=
  ∃ os, apply_ops this os (fresh_store this) = Some s.

(** The move that operator-- makes on an iterator, as a step that gives
    the new value of the iterator. *)
Definition step_next (it : Iterator) : M T Iterator :=
  do r <- Iterator_decr it;
  ret (snd r).

(** The addresses of the nodes of a chain. *)
Definition locs_of (ls : list (loc * T)) : gset loc := list_to_set ls.*1.

(** The position, after a call, of the node that was at position [j]: one
    further for an insert at or before it, one back for a remove before
    it. *)
Definition position_after (o : op) (j : nat) : nat :=
  match o with
  | Insert _ i => if decide (i ≤ j)%nat then S j else j
  | Remove i => if decide (i < j)%nat then pred j else j
  end.

(** The iterator that [end] returns. *)
Definition end_of (this : addr) : Iterator := Iterator_ctor None (Some this).

(** Two chains that have no node in common. *)
Definition separate (la lb : list (loc * T)) : Prop :=
  ∀ l, l ∈ la.*1 → l ∉ lb.*1.

(** Computations that return or are undefined, but do not throw. *)
Definition no_throw {A} (c : M T A) : Prop := ∀ s e s', c s ≠ Throw e s'.

(** [copy], run on [s], makes the container at [B] an independent copy of
    the one at [A]: it returns, [B] holds the values of [A] in the same
    order on nodes of its own, [A] is as before, and the calls [os] made on
    [A] afterwards leave the values of [B] as they are. *)
Definition independent_copy (copy : M T unit) (s : Store T) (A B : addr)
    (os : list op) : Prop :=
  ∃ s1 la lb,
    copy s = Ret tt s1
    ∧ is_list s1 A la ∧ is_list s1 B lb ∧ separate la lb
    ∧ contents s1 A = contents s A
    ∧ contents s1 B = contents s A
    ∧ ∃ s2, apply_ops A os s1 = Some s2
            ∧ contents s2 B = contents s1 B
            ∧ length (contents s2 B) = length (contents s1 B).

End Representation.

(** ** Containers of integers *)

Definition A0 : addr := 1%positive.
Definition B0 : addr := 2%positive.

(** The calls insert(v, end()) for the values of [vs], in order. *)
Definition appends (vs : list Z) : list (@op Z) :=
  imap (fun i v => Insert v i) vs.

(** The store after these calls on a new container at [A0]. *)
Definition chain_of (vs : list Z) : option (Store Z) :=
  apply_ops A0 (appends vs) (fresh_store A0).

(** Every value is at most the one that follows it. *)
Definition nondecreasing (vs : list Z) : bool :=
  forallb (fun xy => fst xy <=? snd xy) (zip vs (tail vs)).

(** Heights of the structure under the links as the class declares them,
    [left] and [right]: an absent child has height 0, a node one more than
    its higher child. *)
Inductive Height (h : gmap loc (Node Z)) : ptr → Z → Prop :=
| Height_null : Height h None 0
| Height_node l n hl hr :
    h !! l = Some n →
    Height h (left n) hl →
    Height h (right n) hr →
    Height h (Some l) (1 + Z.max hl hr).

(** The balance factor of the node at [l] exists and is -1, 0 or 1. *)
Definition balanced_at (h : gmap loc (Node Z)) (l : loc) : Prop :=
  ∃ n hl hr, h !! l = Some n ∧ Height h (left n) hl ∧ Height h (right n) hr
             ∧ -1 ≤ hl - hr ≤ 1.

Definition balanced (s : Store Z) : Prop :=
  ∀ l, l ∈ dom (nodes s) → balanced_at (nodes s) l.

(** The number of nodes met by following [left] from [p]. *)
Fixpoint left_depth (fuel : nat) (h : gmap loc (Node Z)) (p : ptr) : Z :=
  match fuel, p with
  | S fuel', Some l =>
      match h !! l with
      | Some n => 1 + left_depth fuel' h (left n)
      | None => 0
      end
  | _, _ => 0
  end.

(** What a removal by exchange with a successor would leave behind: some
    other node [succ] has been freed, and the node the iterator referenced
    is still live and now stores what [succ] stored. *)
Definition swapped_and_spliced (s : Store Z) (target : loc) (s' : Store Z) : Prop :=
  ∃ succ ns nt,
    succ ≠ target
    ∧ nodes s !! succ = Some ns
    ∧ nodes s' !! succ = None
    ∧ nodes s' !! target = Some nt
    ∧ data nt = data ns.

(** The stores that [chain_of] reaches for 1, 2; for 1, 3; for 1, 2, 3; for
    1, 3, 2 and for 2, 1, 3: the nodes are allocated at 1, 2, 3 in the order
    of the calls. *)
Definition s12 : Store Z :=
  mkStore (<[2%positive := mkNode None (Some 1%positive) 2]>
          (<[1%positive := mkNode (Some 2%positive) None 1]> ∅))
          (<[A0 := Some 1%positive]> ∅).

Definition s13 : Store Z :=
  mkStore (<[2%positive := mkNode None (Some 1%positive) 3]>
          (<[1%positive := mkNode (Some 2%positive) None 1]> ∅))
          (<[A0 := Some 1%positive]> ∅).

Definition s123 : Store Z :=
  mkStore (<[3%positive := mkNode None (Some 2%positive) 3]>
          (<[2%positive := mkNode (Some 3%positive) (Some 1%positive) 2]>
          (<[1%positive := mkNode (Some 2%positive) None 1]> ∅)))
          (<[A0 := Some 1%positive]> ∅).

Definition s132 : Store Z :=
  mkStore (<[3%positive := mkNode None (Some 2%positive) 2]>
          (<[2%positive := mkNode (Some 3%positive) (Some 1%positive) 3]>
          (<[1%positive := mkNode (Some 2%positive) None 1]> ∅)))
          (<[A0 := Some 1%positive]> ∅).

Definition s213 : Store Z :=
  mkStore (<[3%positive := mkNode None (Some 2%positive) 3]>
          (<[2%positive := mkNode (Some 3%positive) (Some 1%positive) 1]>
          (<[1%positive := mkNode (Some 2%positive) None 2]> ∅)))
          (<[A0 := Some 1%positive]> ∅).

(** The store that remove reaches from [s123] with the iterator at the
    node holding 2: the nodes at 1 and 3, linked to each other. *)
Definition s123_without_2 : Store Z :=
  mkStore (<[3%positive := mkNode None (Some 1%positive) 3]>
          (<[1%positive := mkNode (Some 3%positive) None 1]> ∅))
          (<[A0 := Some 1%positive]> ∅).

(** The store after the construction of a container at [A0], insert(1)
    and insert(2) at its end, the construction of a container at [B0] and
    insert(7) at its end. *)
Definition s_two : Store Z :=
  mkStore (<[3%positive := mkNode None None 7]>
          (<[2%positive := mkNode None (Some 1%positive) 2]>
          (<[1%positive := mkNode (Some 2%positive) None 1]> ∅)))
          (<[B0 := Some 3%positive]> (<[A0 := Some 1%positive]> ∅)).

(** ** The forward step

    The postfix increment of the header hands the step over to a prefix
    increment that the header neither declares nor defines, and [Node] has
    no parent link.  The step is therefore taken from the specification,
    over binary trees in which a node is referred to by the way that leads
    to it. *)

Module SpecIterator.

(** Modelled from the spec: the tree of section 3, whose nodes own a left
    and a right subtree and store one value; [Leaf] is an absent child. *)
Inductive tree (T : Type) : Type :=
| Leaf
| Br (l : tree T) (v : T) (r : tree T).

Global Arguments Leaf {T}.
Global Arguments Br {T} l v r.

Inductive dir : Type := GoLeft | GoRight.

(** Modelled from the spec: the reference to a node that an iterator
    holds, with the parent back-reference of section 3.  A node is referred
    to by the steps from the root down to it, the last one first; its
    parent is referred to by the same list without the first entry, and
    the node is a left child when that entry is [GoLeft]. *)
Definition ref : Type := list dir.


Fixpoint descend {T} (t : tree T) (steps : list dir) {struct steps}
    : option (tree T) :=
  match steps with
  | [] => Some t
  | d :: steps' =>
      match t with
      | Leaf => None
      | Br l _ r => descend (match d with GoLeft => l | GoRight => r end) steps'
      end
  end.

(** The subtree rooted at the node referred to. *)
Definition subtree_at {T} (t : tree T) (r : ref) : option (tree T) :=
  descend t (rev r).




(** The references to the nodes of [t], whose root is referred to by [r],
    in in-order: left subtree, node, right subtree. *)
Fixpoint inorder_refs {T} (t : tree T) (r : ref) : list ref :=
  match t with
  | Leaf => []
  | Br l _ rt => inorder_refs l (GoLeft :: r) ++ r :: inorder_refs rt (GoRight :: r)
  end.


(** The tree with root 2, left child 1 and right child 3. *)
Definition t213 : tree Z := Br (Br Leaf 1 Leaf) 2 (Br Leaf 3 Leaf).



End SpecIterator.

(** *** The forward step over the store of the header

    The same step on the nodes of the header: the children of a node are
    its members [left] and [right], an iterator holds the address of a
    node, and the postfix increment of the header (lines 210-215) is run on
    the prefix increment given here. *)

Section SpecStore.

Import SpecIterator.

Context {T : Type}.





End SpecStore.




(** ** Facts about chains *)

Section RepresentationFacts.

Context {T : Type}.
Implicit Types (ls : list (loc * T)) (x : loc * T).
Implicit Types (h : gmap loc (Node T)) (s : Store T).

Lemma last_of_snoc before ls x : last_of before (ls ++ [x]) = Some x.1.
Proof. unfold last_of. by rewrite last_snoc. Qed.

Lemma last_of_cons before x ls : last_of before (x :: ls) = last_of (Some x.1) ls.
Proof.
  unfold last_of. rewrite last_cons. by destruct (last ls).
Qed.

Lemma first_of_app ls1 ls2 after :
  first_of (ls1 ++ ls2) after = first_of ls1 (first_of ls2 after).
Proof. by destruct ls1. Qed.

Lemma seg_app h before ls1 ls2 after :
  seg h before (ls1 ++ ls2) after
  ↔ seg h before ls1 (first_of ls2 after) ∧ seg h (last_of before ls1) ls2 after.
Proof.
  revert before. induction ls1 as [|x ls1 IH]; intros before; simpl.
  - unfold last_of; simpl. tauto.
  - rewrite IH, first_of_app, last_of_cons. tauto.
Qed.

Lemma seg_snoc h before ls x after :
  seg h before (ls ++ [x]) after
  ↔ seg h before ls (Some x.1)
    ∧ h !! x.1 = Some (mkNode after (last_of before ls) x.2).
Proof. rewrite seg_app. simpl. tauto. Qed.

Lemma seg_frame h h' before ls after :
  (∀ l, l ∈ ls.*1 → h' !! l = h !! l) →
  seg h before ls after → seg h' before ls after.
Proof.
  revert before. induction ls as [|x ls IH]; intros before Hag; simpl; [done|].
  intros [Hx Hs]. split.
  - rewrite Hag; [done|]. simpl. left.
  - apply IH; [|done]. intros l Hl. apply Hag. simpl. by right.
Qed.

Lemma seg_lookup h before ls after i x :
  seg h before ls after → ls !! i = Some x →
  ∃ n, h !! x.1 = Some n ∧ data n = x.2
       ∧ next n = first_of (drop (S i) ls) after
       ∧ previous n = last_of before (take i ls).
Proof.
  revert before i. induction ls as [|y ls IH]; intros before i Hs Hi; [done|].
  destruct Hs as [Hy Hs]. destruct i as [|i]; simpl in Hi.
  - injection Hi as ->. eexists; split; [exact Hy|]. simpl. by rewrite drop_0.
  - destruct (IH _ _ Hs Hi) as (n & Hn & Hd & Hnx & Hpv).
    exists n. repeat split; try done.
    rewrite Hpv. simpl. by rewrite last_of_cons.
Qed.

Lemma seg_dom h before ls after l :
  seg h before ls after → l ∈ ls.*1 → l ∈ dom h.
Proof.
  intros Hs Hl. apply list_elem_of_fmap in Hl as (x & -> & Hx).
  apply list_elem_of_lookup in Hx as [i Hi].
  destruct (seg_lookup _ _ _ _ _ _ Hs Hi) as (n & Hn & _).
  apply elem_of_dom. eauto.
Qed.

Lemma seg_length h before ls after :
  seg h before ls after → NoDup ls.*1 → (length ls ≤ size h)%nat.
Proof.
  intros Hs Hnd.
  rewrite <- (length_fmap fst ls), <- (size_list_to_set (C := gset loc)) by done.
  rewrite <- size_dom. apply subseteq_size.
  intros l Hl. apply elem_of_list_to_set in Hl. eauto using seg_dom.
Qed.

End RepresentationFacts.

(** ** The operations on a well-formed chain *)

Section Operations.

Context {T : Type}.
Implicit Types (s : Store T) (h : gmap loc (Node T)).
Implicit Types (ls la lb : list (loc * T)).

Lemma fresh_not_live h : h !! fresh (dom h) = None.
Proof. apply not_elem_of_dom, is_fresh. Qed.

Lemma fresh_not_in_seg h before ls after :
  seg h before ls after → fresh (dom h) ∉ ls.*1.
Proof. intros Hs Hin. apply (is_fresh (dom h)). eapply seg_dom; eauto. Qed.

Lemma seg_alloc h before ls after n :
  seg h before ls after → seg (<[fresh (dom h) := n]> h) before ls after.
Proof.
  intros Hs. eapply seg_frame; [|exact Hs].
  intros l Hl. apply lookup_insert_ne. intros <-.
  by eapply fresh_not_in_seg.
Qed.

Lemma last_node_spec fuel s before x ls :
  seg (nodes s) before (x :: ls) None →
  (length (x :: ls) ≤ fuel)%nat →
  ∃ y, last (x :: ls) = Some y ∧ last_node fuel x.1 s = Ret y.1 s.
Proof.
  revert before x fuel. induction ls as [|z ls IH]; intros before x fuel Hs Hf.
  - destruct fuel as [|fuel]; [simpl in Hf; lia|].
    destruct Hs as [Hx _]. exists x. split; [done|].
    simpl. unfold bind, load. by rewrite Hx.
  - destruct fuel as [|fuel]; [simpl in Hf; lia|].
    destruct Hs as [Hx Hs].
    destruct (IH _ z fuel Hs) as (y & Hy & Hrun); [simpl in *; lia|].
    exists y. split; [by rewrite last_cons_cons|].
    simpl. unfold bind, load. rewrite Hx. simpl. exact Hrun.
Qed.

(** insert with the end iterator appends a new node to the chain. *)
Lemma insert_end_spec s this ls v :
  is_list s this ls →
  ∃ l s', insert this v (end_of this) s = Ret tt s'
    ∧ (l ∉ dom (nodes s))
    ∧ dom (nodes s') = {[l]} ∪ dom (nodes s)
    ∧ is_list s' this (ls ++ [(l, v)])
    ∧ frame this ls s s'.
Proof.
  intros (Hh & Hs & Hnd).
  set (l := fresh (dom (nodes s))).
  assert (Hl : l ∉ dom (nodes s)) by apply is_fresh.
  assert (Hl' : l ∉ ls.*1) by (by eapply fresh_not_in_seg).
  exists l.
  unfold insert, end_of. simpl. rewrite bool_decide_eq_true_2 by done. simpl.
  unfold bind at 1. unfold get_head. rewrite Hh.
  destruct ls as [|x ls]; simpl.
  - unfold bind, new_Node, set_head. simpl. rewrite Hh. fold l.
    eexists; split; [done|]. split; [done|]. simpl.
    split; [by rewrite dom_insert_L|].
    split.
    + repeat split; simpl.
      * by rewrite lookup_insert_eq.
      * by rewrite lookup_insert_eq.
      * apply NoDup_singleton.
    + split; simpl.
      * intros a Ha. by rewrite lookup_insert_ne.
      * intros l0 Hl0 _. apply lookup_insert_ne. intros <-. done.
  - destruct (last_node_spec (fuel_of s) s None x ls Hs) as (y & Hy & Hrun).
    { unfold fuel_of. pose proof (seg_length _ _ _ _ Hs Hnd). simpl in *. lia. }
    unfold bind at 1. unfold with_fuel. rewrite Hrun.
    apply last_Some in Hy as [ls0 Hls0].
    change (x :: ls) with ([x] ++ ls) in Hs.
    assert (Hs' : seg (nodes s) None (ls0 ++ [y]) None).
    { rewrite <- Hls0. exact Hs. }
    apply seg_snoc in Hs' as [Hs0 Hy].
    unfold bind, new_Node, store_next. simpl. fold l.
    assert (Hyl : l ≠ y.1).
    { intros E. apply Hl, elem_of_dom. rewrite E. eauto. }
    rewrite lookup_insert_ne, Hy by done.
    eexists; split; [done|]. split; [done|].
    split.
    { simpl. rewrite !dom_insert_L. apply elem_of_dom_2 in Hy.
      apply set_eq. intros l0. rewrite !elem_of_union, !elem_of_singleton.
      split; [intros [->|[->|?]]|intros [->|?]]; auto. }
    assert (Hnd' : NoDup (ls0 ++ [y]).*1) by (by rewrite <- Hls0).
    rewrite fmap_app in Hnd'. apply NoDup_app in Hnd' as (Hnd0 & Hdis & _).
    split.
    + split; [|split]; cbn [nodes heads].
      * exact Hh.
      * change (x :: ls ++ [(l, v)]) with ((x :: ls) ++ [(l, v)]).
        rewrite Hls0. apply seg_snoc. split.
        -- apply seg_snoc. split.
           ++ eapply seg_frame; [|exact Hs0]. intros l0 Hl0.
              rewrite !lookup_insert_ne; [done| |].
              ** intros <-. apply Hl'. rewrite Hls0, fmap_app.
                 apply elem_of_app. by left.
              ** intros <-. eapply Hdis; [exact Hl0|]. simpl. left.
           ++ cbn [fst snd]. by rewrite lookup_insert_eq.
        -- cbn [fst snd]. rewrite lookup_insert_ne, lookup_insert_eq by done.
           by rewrite last_of_snoc.
      * change (x :: ls ++ [(l, v)]) with ((x :: ls) ++ [(l, v)]).
        rewrite fmap_app. apply NoDup_app. split; [done|]. split.
        -- intros l0 Hl0 Hin. simpl in Hin. apply list_elem_of_singleton in Hin as ->. done.
        -- apply NoDup_singleton.
    + split; simpl; [done|].
      intros l0 Hl0 Hnin. rewrite !lookup_insert_ne; [done| |].
      * intros <-. done.
      * intros <-. apply Hnin. change (y.1 ∈ (x :: ls).*1).
        rewrite Hls0, fmap_app. apply elem_of_app. right. simpl. left.
Qed.

Lemma snoc_or_nil ls : ls = [] ∨ ∃ ls' x, ls = ls' ++ [x].
Proof. induction ls using rev_ind; eauto. Qed.

Lemma NoDup_split ls1 (x : loc * T) ls2 :
  NoDup (ls1 ++ x :: ls2).*1 →
  NoDup ls1.*1 ∧ NoDup ls2.*1 ∧ (x.1 ∉ ls1.*1) ∧ (x.1 ∉ ls2.*1)
  ∧ (∀ l, l ∈ ls1.*1 → l ∉ ls2.*1).
Proof.
  rewrite fmap_app, fmap_cons. intros H.
  apply NoDup_app in H as (H1 & Hd & H2).
  apply NoDup_cons in H2 as [Hx H2].
  repeat split; try done.
  - intros Hin. apply (Hd _ Hin). left.
  - intros l Hl Hl2. apply (Hd _ Hl). by right.
Qed.

(** insert with an iterator at a node of the chain links a new node in
    front of that node. *)
Lemma insert_before_spec s this ls1 x ls2 v :
  is_list s this (ls1 ++ x :: ls2) →
  ∃ l s', insert this v (Iterator_ctor (Some x.1) (Some this)) s = Ret tt s'
    ∧ (l ∉ dom (nodes s))
    ∧ dom (nodes s') = {[l]} ∪ dom (nodes s)
    ∧ is_list s' this (ls1 ++ (l, v) :: x :: ls2)
    ∧ frame this (ls1 ++ x :: ls2) s s'.
Proof.
  intros (Hh & Hs & Hnd).
  set (l := fresh (dom (nodes s))).
  assert (Hl : l ∉ dom (nodes s)) by apply is_fresh.
  assert (Hl' : l ∉ (ls1 ++ x :: ls2).*1) by (by eapply fresh_not_in_seg).
  rewrite fmap_app, fmap_cons, elem_of_app, elem_of_cons in Hl'.
  destruct (NoDup_split _ _ _ Hnd) as (Hnd1 & Hnd2 & Hx1 & Hx2 & Hd12).
  pose proof Hs as Hs0.
  apply seg_app in Hs as [Hs1 Hs2]. destruct Hs2 as [Hx Hs2]. cbn [first_of] in Hs1.
  assert (Hlx : l ≠ x.1) by (intros E; apply Hl'; auto).
  exists l.
  unfold insert. simpl. rewrite bool_decide_eq_true_2 by done. simpl.
  unfold bind, load, new_Node, store_previous. rewrite Hx. simpl. fold l.
  rewrite lookup_insert_ne, Hx by done.
  unfold previous, with_previous. simpl.
  assert (Hdom : dom (<[x.1:={| left := first_of ls2 None; right := Some l; data := x.2 |}]>
                        (<[l:=Node_ctor v (Some x.1) (last_of None ls1)]> (nodes s)))
                 = {[l]} ∪ dom (nodes s)).
  { rewrite !dom_insert_L. apply elem_of_dom_2 in Hx.
    apply set_eq. intros l0. rewrite !elem_of_union, !elem_of_singleton.
    split; [intros [->|[->|?]]|intros [->|?]]; auto. }
  destruct (snoc_or_nil ls1) as [->|(ls0 & p & ->)].
  - (* the node is the first one: the new node becomes the head *)
    unfold last_of. simpl. unfold set_head. simpl. simpl in Hh. rewrite Hh.
    eexists; split; [done|]. split; [done|]. simpl. split; [exact Hdom|].
    split; [split; [|split]|split]; cbn [nodes heads].
    + by rewrite lookup_insert_eq.
    + simpl. split; [|split].
      * by rewrite lookup_insert_ne, lookup_insert_eq.
      * by rewrite lookup_insert_eq.
      * eapply seg_frame; [|exact Hs2]. intros l0 Hl0.
        rewrite !lookup_insert_ne; [done| |]; intros <-; auto.
    + simpl. apply NoDup_cons. split; [|exact Hnd].
      intros Hin. apply elem_of_cons in Hin. apply Hl'. right. exact Hin.
    + intros a Ha. by rewrite lookup_insert_ne.
    + intros l0 Hl0 Hnin. simpl in Hnin.
      rewrite !lookup_insert_ne; [done| |]; intros <-; [done|].
      apply Hnin. left.
  - (* the node has a predecessor p *)
    rewrite last_of_snoc in Hdom, Hx |- *. unfold store_next. simpl.
    apply seg_snoc in Hs1 as [Hs1 Hp].
    rewrite fmap_app in Hx1, Hd12, Hnd1.
    apply NoDup_app in Hnd1 as (Hnd0 & Hd0 & _).
    assert (Hpx : p.1 ≠ x.1).
    { intros E. apply Hx1. rewrite <- E. apply elem_of_app. right. simpl. left. }
    assert (Hpl : l ≠ p.1).
    { intros E. apply Hl, elem_of_dom. rewrite E. eauto. }
    rewrite !lookup_insert_ne, Hp by done.
    eexists; split; [done|]. split; [done|]. simpl.
    split.
    { rewrite dom_insert_L, Hdom. apply elem_of_dom_2 in Hp.
      apply set_eq. intros l0. rewrite !elem_of_union, !elem_of_singleton.
      split; [intros [->|[->|?]]|intros [->|?]]; auto. }
    split; [split; [|split]|split]; cbn [nodes heads].
    + rewrite Hh. by rewrite !first_of_app.
    + apply seg_app. split.
      * apply seg_snoc. split.
        -- eapply seg_frame; [|exact Hs1]. intros l0 Hl0.
           rewrite !lookup_insert_ne; [done| | |]; intros <-.
           ++ apply Hl'. left. rewrite fmap_app. apply elem_of_app. by left.
           ++ apply Hx1. apply elem_of_app. by left.
           ++ eapply Hd0; [exact Hl0|]. simpl. left.
        -- cbn [first_of fst snd]. unfold with_next. simpl.
           by rewrite lookup_insert_eq.
      * rewrite last_of_snoc. simpl. split; [|split].
        -- by rewrite lookup_insert_ne, lookup_insert_ne, lookup_insert_eq.
        -- by rewrite lookup_insert_ne, lookup_insert_eq.
        -- eapply seg_frame; [|exact Hs2]. intros l0 Hl0.
           rewrite !lookup_insert_ne; [done| | |]; intros <-; auto.
           eapply Hd12; [|exact Hl0]. apply elem_of_app. right. simpl. left.
    + rewrite fmap_app, fmap_cons. apply NoDup_app.
      rewrite fmap_app, fmap_cons in Hnd. apply NoDup_app in Hnd as (? & Hd & ?).
      split; [done|]. split.
      * intros l0 Hl0. rewrite elem_of_cons. intros [->|Hin].
        -- apply Hl'. by left.
        -- by apply (Hd _ Hl0).
      * apply NoDup_cons. split; [|done]. cbn [fst]. intros Hin.
        apply elem_of_cons in Hin. apply Hl'. by right.
    + done.
    + intros l0 Hl0 Hnin.
      rewrite fmap_app, fmap_cons, elem_of_app, elem_of_cons in Hnin.
      rewrite !lookup_insert_ne; [done| | |]; intros <-.
      * done.
      * apply Hnin. auto.
      * apply Hnin. left. rewrite fmap_app. apply elem_of_app. right. simpl. left.
Qed.

Lemma seg_insert_other h before ls after l n :
  l ∉ ls.*1 → seg h before ls after → seg (<[l := n]> h) before ls after.
Proof.
  intros Hl. apply seg_frame. intros l0 Hl0.
  apply lookup_insert_ne. by intros <-.
Qed.

Lemma seg_delete_other h before ls after l :
  l ∉ ls.*1 → seg h before ls after → seg (delete l h) before ls after.
Proof.
  intros Hl. apply seg_frame. intros l0 Hl0.
  apply lookup_delete_ne. by intros <-.
Qed.

Lemma seg_retarget_last h before ls p after after' :
  p.1 ∉ ls.*1 →
  seg h before (ls ++ [p]) after →
  seg (<[p.1 := mkNode after' (last_of before ls) p.2]> h) before (ls ++ [p]) after'.
Proof.
  intros Hp [Hs _]%seg_snoc. apply seg_snoc. split.
  - by apply seg_insert_other.
  - by rewrite lookup_insert_eq.
Qed.

Lemma seg_retarget_first h before q ls after before' :
  q.1 ∉ ls.*1 →
  seg h before (q :: ls) after →
  seg (<[q.1 := mkNode (first_of ls after) before' q.2]> h) before' (q :: ls) after.
Proof.
  intros Hq [_ Hs]. split.
  - by rewrite lookup_insert_eq.
  - by apply seg_insert_other.
Qed.

(** remove with an iterator at a node of the chain unlinks that node and
    frees it. *)
Lemma remove_spec s this ls1 x ls2 :
  is_list s this (ls1 ++ x :: ls2) →
  ∃ s', remove this (Iterator_ctor (Some x.1) (Some this)) s = Ret tt s'
    ∧ dom (nodes s') = dom (nodes s) ∖ {[x.1]}
    ∧ is_list s' this (ls1 ++ ls2)
    ∧ frame this (ls1 ++ x :: ls2) s s'.
Proof.
  intros (Hh & Hs & Hnd).
  destruct (NoDup_split _ _ _ Hnd) as (Hnd1 & Hnd2 & Hx1 & Hx2 & Hd12).
  assert (Hnd' : NoDup (ls1 ++ ls2).*1).
  { rewrite fmap_app. apply NoDup_app. auto. }
  assert (Hx12 : x.1 ∉ (ls1 ++ ls2).*1).
  { rewrite fmap_app. intros [?|?]%elem_of_app; auto. }
  apply seg_app in Hs as [Hs1 Hs2]. pose proof Hs2 as [Hx Hs2']. cbn [first_of] in Hs1.
  unfold remove. unfold bind at 1. unfold get_head. rewrite Hh.
  rewrite first_of_app. cbn [first_of node Iterator_ctor listPtr avlTreePtr].
  replace (bool_decide (first_of ls1 (Some x.1) = None)) with false
    by (by destruct ls1).
  rewrite bool_decide_eq_false_2 by done.
  rewrite bool_decide_eq_true_2 by done.
  rewrite bool_decide_eq_false_2 by done.
  cbn [orb negb].
  destruct (snoc_or_nil ls1) as [->|(ls0 & p & ->)];
    destruct ls2 as [|q ls2].
  - (* the only node *)
    unfold bind, load, set_head, delete_Node. rewrite Hx. simpl.
    rewrite Hx. simpl. rewrite Hx. simpl. rewrite Hh. simpl. rewrite Hx.
    eexists; split; [done|]. simpl. split; [by rewrite dom_delete_L|].
    split; [split; [|split]|split]; cbn [nodes heads].
    + by rewrite lookup_insert_eq.
    + done.
    + done.
    + intros a Ha. by rewrite lookup_insert_ne.
    + intros l0 _ Hl0. apply lookup_delete_ne. intros <-. apply Hl0. simpl. left.
  - (* the first node, followed by q *)
    destruct Hs2' as [Hq Hs2'].
    apply NoDup_cons in Hnd2 as [Hq2 Hnd2].
    assert (Hqx : q.1 ≠ x.1).
    { intros E. apply Hx2. rewrite <- E. simpl. left. }
    unfold bind, load, set_head, delete_Node, store_previous. rewrite Hx. simpl.
    rewrite Hx. simpl. rewrite Hq. simpl.
    rewrite lookup_insert_ne, Hx by done. simpl. rewrite Hh. simpl.
    rewrite lookup_insert_ne, Hx by done.
    eexists; split; [done|]. simpl.
    split. { by rewrite dom_delete_L, dom_insert_L, (subseteq_union_1_L {[q.1]})
               by (apply singleton_subseteq_l, elem_of_dom; eauto). }
    split; [split; [|split]|split]; cbn [nodes heads].
    + by rewrite lookup_insert_eq.
    + apply seg_delete_other; [done|].
      unfold with_previous, last_of. simpl.
      apply (seg_retarget_first _ (Some x.1) q ls2 None None); [done|].
      split; done.
    + done.
    + intros a Ha. by rewrite lookup_insert_ne.
    + intros l0 _ Hl0. simpl in Hl0.
      rewrite lookup_delete_ne, lookup_insert_ne; [done| |]; intros <-; apply Hl0.
      * right. left.
      * left.
  - (* the last node, preceded by p *)
    rewrite last_of_snoc in Hx.
    pose proof Hs1 as [Hs0 Hp]%seg_snoc.
    rewrite fmap_app in Hx1, Hnd1.
    apply NoDup_app in Hnd1 as (Hnd0 & Hd0 & _).
    assert (Hpx : p.1 ≠ x.1).
    { intros E. apply Hx1. rewrite <- E. apply elem_of_app. right. simpl. left. }
    assert (Hp0 : p.1 ∉ ls0.*1).
    { intros Hin. apply (Hd0 _ Hin). simpl. left. }
    unfold bind, load, set_head, delete_Node, store_next. rewrite Hx. simpl.
    rewrite Hp. simpl.
    rewrite lookup_insert_ne, Hx by done. simpl.
    rewrite lookup_insert_ne, Hx by done. simpl.
    rewrite lookup_insert_ne, Hx by done.
    eexists; split; [done|]. simpl.
    split. { by rewrite dom_delete_L, dom_insert_L, (subseteq_union_1_L {[p.1]})
               by (apply singleton_subseteq_l, elem_of_dom; eauto). }
    split; [split; [|split]|split]; cbn [nodes heads].
    + rewrite Hh. by rewrite !app_nil_r, !first_of_app.
    + rewrite app_nil_r. apply seg_delete_other.
      { by rewrite fmap_app. }
      unfold with_next. simpl.
      by apply (seg_retarget_last _ None ls0 p (Some x.1) None).
    + done.
    + done.
    + intros l0 _ Hl0.
      rewrite fmap_app, fmap_cons, elem_of_app, elem_of_cons in Hl0.
      rewrite lookup_delete_ne, lookup_insert_ne; [done| |]; intros <-; apply Hl0.
      * left. rewrite fmap_app. apply elem_of_app. right. simpl. left.
      * right. by left.
  - (* a node between p and q *)
    rewrite last_of_snoc in Hx.
    destruct Hs2' as [Hq Hs2'].
    apply NoDup_cons in Hnd2 as [Hq2 Hnd2].
    pose proof Hs1 as [Hs0 Hp]%seg_snoc.
    rewrite fmap_app in Hx1, Hnd1.
    apply NoDup_app in Hnd1 as (Hnd0 & Hd0 & _).
    assert (Hqx : q.1 ≠ x.1).
    { intros E. apply Hx2. rewrite <- E. simpl. left. }
    assert (Hpx : p.1 ≠ x.1).
    { intros E. apply Hx1. rewrite <- E. apply elem_of_app. right. simpl. left. }
    assert (Hp0 : p.1 ∉ ls0.*1).
    { intros Hin. apply (Hd0 _ Hin). simpl. left. }
    assert (Hp2 : p.1 ∉ (q :: ls2).*1).
    { apply Hd12. rewrite fmap_app. apply elem_of_app. right. simpl. left. }
    assert (Hpq : p.1 ≠ q.1).
    { intros E. apply Hp2. rewrite E. simpl. left. }
    assert (Hq1 : q.1 ∉ (ls0 ++ [p]).*1).
    { intros Hin. apply (Hd12 _ Hin). simpl. left. }
    unfold bind, load, set_head, delete_Node, store_next, store_previous.
    rewrite Hx. simpl. rewrite Hp. simpl.
    rewrite lookup_insert_ne, Hx by done. simpl.
    rewrite lookup_insert_ne, Hq by done. simpl.
    rewrite !lookup_insert_ne, Hx by done. simpl.
    rewrite !lookup_insert_ne, Hx by done.
    eexists; split; [done|]. simpl.
    split.
    { rewrite dom_delete_L, !dom_insert_L.
      rewrite (subseteq_union_1_L {[p.1]})
        by (apply singleton_subseteq_l, elem_of_dom; eauto).
      by rewrite (subseteq_union_1_L {[q.1]})
        by (apply singleton_subseteq_l, elem_of_dom; eauto). }
    split; [split; [|split]|split]; cbn [nodes heads].
    + rewrite Hh. by rewrite !first_of_app.
    + apply seg_delete_other; [exact Hx12|].
      apply seg_app. split.
      * apply seg_insert_other; [done|].
        unfold with_next. simpl.
        by apply (seg_retarget_last _ None ls0 p (Some x.1) (Some q.1)).
      * rewrite last_of_snoc. unfold with_previous. simpl.
        apply (seg_retarget_first _ (Some x.1) q ls2 None (Some p.1)); [done|].
        apply seg_insert_other; [done|]. split; done.
    + done.
    + done.
    + intros l0 _ Hl0.
      rewrite fmap_app, fmap_cons, elem_of_app, elem_of_cons in Hl0.
      rewrite lookup_delete_ne, !lookup_insert_ne; [done| | |]; intros <-; apply Hl0.
      * left. rewrite fmap_app. apply elem_of_app. right. simpl. left.
      * right. right. simpl. left.
      * right. by left.
Qed.

Lemma walk_seg fuel h before ls after :
  seg h before ls after → (length ls ≤ fuel)%nat → after = None →
  walk fuel h (first_of ls after) = ls.*2.
Proof.
  intros Hs Hf ->. revert before fuel Hs Hf.
  induction ls as [|x ls IH]; intros before fuel Hs Hf; simpl.
  - by destruct fuel.
  - destruct fuel as [|fuel]; [simpl in Hf; lia|].
    destruct Hs as [Hx Hs]. simpl. rewrite Hx. simpl. f_equal.
    apply (IH (Some x.1)); [done|]. simpl in Hf. lia.
Qed.

Lemma contents_is_list s this ls : is_list s this ls → contents s this = ls.*2.
Proof.
  intros (Hh & Hs & Hnd). unfold contents. rewrite Hh.
  eapply walk_seg; [exact Hs| |done].
  unfold fuel_of. pose proof (seg_length _ _ _ _ Hs Hnd). lia.
Qed.

Lemma nth_node_seg h before ls after i :
  seg h before ls after → after = None →
  nth_node h (first_of ls after) i = fst <$> ls !! i.
Proof.
  intros Hs ->. revert before i Hs.
  induction ls as [|x ls IH]; intros before i Hs.
  - by destruct i.
  - destruct Hs as [Hx Hs]. destruct i as [|i]; [done|].
    simpl. rewrite Hx. simpl. by apply (IH (Some x.1)).
Qed.

Lemma iterator_nth_is_list s this ls i :
  is_list s this ls → iterator_nth s this i = iterator_at this ls i.
Proof.
  intros (Hh & Hs & _). unfold iterator_nth, iterator_at. rewrite Hh.
  f_equal. by eapply nth_node_seg.
Qed.

Lemma split_at ls i x :
  ls !! i = Some x →
  ∃ ls1 ls2, ls = ls1 ++ x :: ls2 ∧ take i ls = ls1 ∧ drop i ls = x :: ls2
             ∧ delete i ls = ls1 ++ ls2.
Proof.
  intros Hi. exists (take i ls), (drop (S i) ls).
  split; [by rewrite take_drop_middle|]. split; [done|].
  split; [by apply drop_S|]. apply delete_take_drop.
Qed.

(** insert at a position of the chain: the new node takes that position. *)
Lemma insert_at_spec s this ls v i :
  is_list s this ls →
  ∃ l s', insert this v (iterator_at this ls i) s = Ret tt s'
    ∧ (l ∉ dom (nodes s))
    ∧ dom (nodes s') = {[l]} ∪ dom (nodes s)
    ∧ is_list s' this (take i ls ++ (l, v) :: drop i ls)
    ∧ frame this ls s s'.
Proof.
  intros Hl. unfold iterator_at.
  destruct (ls !! i) as [x|] eqn:Hi; simpl.
  - destruct (split_at _ _ _ Hi) as (ls1 & ls2 & E & -> & -> & _).
    rewrite E in Hl |- *. by apply insert_before_spec.
  - apply lookup_ge_None in Hi.
    destruct (insert_end_spec _ _ _ v Hl) as (l & s' & ? & ? & ? & ? & ?).
    exists l, s'. rewrite take_ge, drop_ge by done. done.
Qed.

(** remove at a position of the chain. *)
Lemma remove_at_spec s this ls i x :
  is_list s this ls → ls !! i = Some x →
  ∃ s', remove this (iterator_at this ls i) s = Ret tt s'
    ∧ dom (nodes s') = dom (nodes s) ∖ {[x.1]}
    ∧ is_list s' this (delete i ls)
    ∧ frame this ls s s'.
Proof.
  intros Hl Hi. unfold iterator_at. rewrite Hi. simpl.
  destruct (split_at _ _ _ Hi) as (ls1 & ls2 & E & _ & _ & ->).
  rewrite E in Hl |- *. by apply remove_spec.
Qed.

(** remove with the end iterator, on a live container, throws before it
    writes anything. *)
Lemma remove_end_throws s this (first : ptr) :
  heads s !! this = Some first →
  remove this (Iterator_ctor None (Some this)) s = Throw ElementNotFound s.
Proof.
  intros Hh. unfold remove, bind, get_head. rewrite Hh. simpl.
  by rewrite orb_true_r.
Qed.

Lemma is_list_frame s s' A la B lb :
  A ≠ B → frame A la s s' → separate la lb →
  is_list s B lb → is_list s' B lb.
Proof.
  intros Hne [Hfh Hfn] Hsep (Hh & Hs & Hnd). split; [|split; [|done]].
  - rewrite Hfh; [done|]. by intros ->.
  - eapply seg_frame; [|exact Hs]. intros l Hl. apply Hfn.
    + eapply seg_dom; eauto.
    + intros Hla. by apply (Hsep _ Hla).
Qed.

(** One call on a well-formed container: it returns or throws, the
    container stays well-formed, and only its own nodes and newly
    allocated ones are involved. *)
Lemma apply_op_spec s this ls o :
  is_list s this ls →
  ∃ s' ls',
    (apply_op this o s = Ret tt s'
     ∨ (apply_op this o s = Throw ElementNotFound s' ∧ s' = s))
    ∧ is_list s' this ls'
    ∧ frame this ls s s'
    ∧ (∀ l, l ∈ ls'.*1 → l ∈ ls.*1 ∨ l ∉ dom (nodes s)).
Proof.
  intros Hl. destruct o as [v i|i]; unfold apply_op;
    rewrite (iterator_nth_is_list _ _ _ _ Hl).
  - destruct (insert_at_spec _ _ _ v i Hl) as (l & s' & Hrun & Hfresh & _ & Hl' & Hfr).
    exists s', (take i ls ++ (l, v) :: drop i ls). split; [by left|].
    split; [done|]. split; [done|].
    intros l0. rewrite fmap_app, fmap_cons, elem_of_app, elem_of_cons.
    intros [Hin|[->|Hin]]; [left|by right|left].
    + apply list_elem_of_fmap in Hin as (y & -> & Hy).
      apply list_elem_of_fmap. exists y. split; [done|].
      eapply elem_of_sublist; [exact Hy|apply sublist_take].
    + apply list_elem_of_fmap in Hin as (y & -> & Hy).
      apply list_elem_of_fmap. exists y. split; [done|].
      eapply elem_of_sublist; [exact Hy|apply sublist_drop].
  - destruct (ls !! i) as [x|] eqn:Hi.
    + destruct (remove_at_spec _ _ _ _ _ Hl Hi) as (s' & Hrun & _ & Hl' & Hfr).
      exists s', (delete i ls). split; [by left|].
      split; [done|]. split; [done|].
      intros l0 Hin. left.
      apply list_elem_of_fmap in Hin as (y & -> & Hy).
      apply list_elem_of_fmap. exists y. split; [done|].
      eapply elem_of_sublist; [exact Hy|apply sublist_delete].
    + exists s, ls. split.
      * right. split; [|done]. unfold iterator_at. rewrite Hi. simpl.
        destruct Hl as (Hh & _). eapply remove_end_throws; eauto.
      * split; [done|]. split; [split; done|]. auto.
Qed.

(** Calls on the container at [A] leave the chain of another container,
    which shares no node with it, as it is. *)
Lemma apply_ops_other s A la B lb os :
  A ≠ B → is_list s A la → is_list s B lb → separate la lb →
  ∃ s' la', apply_ops A os s = Some s'
    ∧ is_list s' A la' ∧ is_list s' B lb ∧ separate la' lb.
Proof.
  intros Hne. revert s la. induction os as [|o os IH]; intros s la HA HB Hsep.
  - exists s, la. done.
  - destruct (apply_op_spec _ _ _ o HA) as (s1 & la1 & Hrun & HA1 & Hfr & Hnew).
    assert (HB1 : is_list s1 B lb) by (eapply is_list_frame; eauto).
    assert (Hsep1 : separate la1 lb).
    { intros l Hl Hlb. destruct (Hnew _ Hl) as [Hin|Hnl].
      - by apply (Hsep _ Hin).
      - apply Hnl. destruct HB as (_ & HsB & _). eapply seg_dom; eauto. }
    destruct (IH _ _ HA1 HB1 Hsep1) as (s' & la' & Hrun' & ?).
    exists s', la'. split; [|done]. simpl.
    by destruct Hrun as [->|[-> _]].
Qed.

Lemma fresh_store_is_list this : is_list (T := T) (fresh_store this) this [].
Proof.
  split; [|split]; simpl.
  - by rewrite lookup_insert_eq.
  - done.
  - apply NoDup_nil_2.
Qed.

(** Every sequence of calls runs on a well-formed container, and the
    container is well-formed afterwards. *)
Lemma apply_ops_is_list s this ls os :
  is_list s this ls →
  ∃ s' ls', apply_ops this os s = Some s' ∧ is_list s' this ls'.
Proof.
  revert s ls. induction os as [|o os IH]; intros s ls Hl.
  - exists s, ls. done.
  - destruct (apply_op_spec _ _ _ o Hl) as (s1 & ls1 & Hrun & Hl1 & _).
    destruct (IH _ _ Hl1) as (s' & ls' & Hrun' & ?).
    exists s', ls'. split; [|done]. simpl.
    by destruct Hrun as [->|[-> _]].
Qed.

Lemma reachable_is_list this s : reachable this s → ∃ ls, is_list s this ls.
Proof.
  intros [os Hos].
  destruct (apply_ops_is_list _ _ _ os (fresh_store_is_list this))
    as (s' & ls' & Hrun & Hl).
  rewrite Hos in Hrun. injection Hrun as <-. eauto.
Qed.

Lemma separate_sym la lb : separate la lb → separate lb la.
Proof. intros H l Hb Ha. by apply (H _ Ha). Qed.

Lemma frame_trans this ls ls' s s1 s2 :
  frame this ls s s1 → frame this ls' s1 s2 →
  (∀ l, l ∈ ls'.*1 → l ∈ ls.*1) →
  frame this ls s s2.
Proof.
  intros [Hh1 Hn1] [Hh2 Hn2] Hsub. split.
  - intros a Ha. by rewrite Hh2, Hh1.
  - intros l Hl Hnl. rewrite Hn2, Hn1; [done..| |].
    + apply elem_of_dom. rewrite Hn1 by done. by apply elem_of_dom.
    + intros Hin. by apply Hnl, Hsub.
Qed.

(** The loop of the assignment that empties the destination. *)
Lemma clear_spec fuel s this ls :
  is_list s this ls → (length ls < fuel)%nat →
  ∃ s', clear fuel this s = Ret tt s'
    ∧ is_list s' this [] ∧ frame this ls s s'.
Proof.
  revert fuel s. induction ls as [|x ls IH]; intros fuel s Hl Hf.
  - destruct fuel as [|fuel]; [lia|]. exists s.
    destruct Hl as (Hh & ?). simpl. unfold bind, get_head. rewrite Hh. simpl.
    split; [done|]. split; [by split|]. by split.
  - destruct fuel as [|fuel]; [lia|].
    pose proof Hl as (Hh & _).
    destruct (remove_spec s this [] x ls Hl) as (s1 & Hrun & _ & Hl1 & Hfr1).
    destruct (IH fuel s1 Hl1) as (s' & Hrun' & Hl' & Hfr'); [simpl in Hf; lia|].
    exists s'. simpl. unfold bind at 1. unfold get_head at 1. rewrite Hh. simpl.
    unfold begin_. unfold bind at 1. unfold bind at 1. unfold get_head. rewrite Hh.
    simpl. unfold bind at 1. simpl in Hrun. rewrite Hrun.
    split; [done|]. split; [done|].
    eapply frame_trans; [exact Hfr1|exact Hfr'|].
    intros l Hl0. simpl. by right.
Qed.

(** The loop that appends the data of the source chain to the
    destination, from the node that follows [lp] on. *)
Lemma append_all_spec fuel s A B lp lr lb :
  A ≠ B → is_list s A (lp ++ lr) → is_list s B lb →
  separate (lp ++ lr) lb → (length lr ≤ fuel)%nat →
  ∃ s' lnew, append_all fuel B (first_of lr None) s = Ret tt s'
    ∧ is_list s' A (lp ++ lr) ∧ is_list s' B (lb ++ lnew)
    ∧ lnew.*2 = lr.*2 ∧ separate (lp ++ lr) (lb ++ lnew).
Proof.
  intros Hne. revert fuel s lp lb.
  induction lr as [|x lr IH]; intros fuel s lp lb HA HB Hsep Hf.
  - exists s, []. rewrite !app_nil_r in *.
    split; [by destruct fuel|]. done.
  - destruct fuel as [|fuel]; [simpl in Hf; lia|].
    destruct (insert_end_spec s B lb x.2 HB) as (l & s1 & Hrun & Hfresh & _ & HB1 & Hfr).
    assert (HA1 : is_list s1 A (lp ++ x :: lr)).
    { eapply is_list_frame; [| exact Hfr | |exact HA]; [done|by apply separate_sym]. }
    assert (Hsep1 : separate (lp ++ x :: lr) (lb ++ [(l, x.2)])).
    { intros l0 Hl0. rewrite fmap_app, elem_of_app. intros [Hin|Hin].
      - by apply (Hsep _ Hl0).
      - simpl in Hin. apply list_elem_of_singleton in Hin as ->.
        apply Hfresh. destruct HA as (_ & HsA & _). eapply seg_dom; eauto. }
    assert (Hx : ∀ s0, is_list s0 A (lp ++ x :: lr) →
               nodes s0 !! x.1
               = Some (mkNode (first_of lr None) (last_of None lp) x.2)).
    { intros s0 (_ & Hs0 & _). by apply seg_app in Hs0 as [_ [? _]]. }
    rewrite (cons_middle x lp lr), app_assoc in HA1, Hsep1.
    destruct (IH fuel s1 (lp ++ [x]) (lb ++ [(l, x.2)]) HA1 HB1 Hsep1)
      as (s' & lnew & Hrun' & HA' & HB' & Hvals & Hsep');
      [simpl in Hf; lia|].
    exists s', ((l, x.2) :: lnew).
    rewrite (cons_middle x lp lr), app_assoc.
    rewrite (cons_middle (l, x.2) lb lnew), app_assoc.
    split; [|split; [done|split; [done|split; [|done]]]].
    + cbn [append_all first_of]. unfold bind at 1. unfold load at 1.
      rewrite (Hx s HA). unfold bind at 1. unfold end_ at 1, ret at 1.
      unfold bind at 1. cbn [data]. fold (end_of B). rewrite Hrun.
      unfold bind at 1. unfold load at 1.
      rewrite <- app_assoc, <- cons_middle in HA1. rewrite (Hx s1 HA1).
      exact Hrun'.
    + rewrite !fmap_cons. by rewrite Hvals.
Qed.

(** The loops of operator= between two distinct well-formed containers. *)
Lemma assign_spec s A B la lb :
  A ≠ B → is_list s A la → is_list s B lb → separate la lb →
  ∃ s' lb', AvlTree_assign_loops B A s = Ret tt s'
    ∧ is_list s' A la ∧ is_list s' B lb'
    ∧ lb'.*2 = la.*2 ∧ separate la lb'.
Proof.
  intros Hne HA HB Hsep.
  destruct (clear_spec (fuel_of s) s B lb HB) as (s1 & Hrun1 & HB1 & Hfr1).
  { unfold fuel_of. destruct HB as (_ & Hs & Hnd).
    pose proof (seg_length _ _ _ _ Hs Hnd). lia. }
  assert (HA1 : is_list s1 A la).
  { eapply is_list_frame; [|exact Hfr1| |exact HA]; [done|by apply separate_sym]. }
  destruct (append_all_spec (fuel_of s1) s1 A B [] la [] Hne HA1 HB1)
    as (s' & lnew & Hrun2 & HA' & HB' & Hvals & Hsep').
  { intros l _ Hin. simpl in Hin. by apply elem_of_nil in Hin. }
  { unfold fuel_of. destruct HA1 as (_ & Hs & Hnd).
    pose proof (seg_length _ _ _ _ Hs Hnd). lia. }
  exists s', lnew. split; [|done].
  unfold AvlTree_assign_loops.
  unfold bind at 1. unfold with_fuel at 1. rewrite Hrun1.
  unfold bind at 1. unfold get_head.
  destruct HA1 as (-> & _). unfold with_fuel. exact Hrun2.
Qed.

(** AvlTree<T>::AvlTree(AvlTree&) for a new object at [B]. *)
Lemma copy_ctor_spec s A B la :
  A ≠ B → is_list s A la →
  ∃ s' lb', AvlTree_copy_ctor B A s = Ret tt s'
    ∧ is_list s' A la ∧ is_list s' B lb'
    ∧ lb'.*2 = la.*2 ∧ separate la lb'.
Proof.
  intros Hne HA.
  set (s1 := mkStore (nodes s) (<[B := None]> (heads s))).
  assert (HA1 : is_list s1 A la).
  { destruct HA as (Hh & Hs & Hnd). split; [|done]. simpl.
    by rewrite lookup_insert_ne. }
  assert (HB1 : is_list s1 B []).
  { split; [|split]; simpl; [by rewrite lookup_insert_eq|done|apply NoDup_nil_2]. }
  destruct (append_all_spec (fuel_of s1) s1 A B [] la [] Hne HA1 HB1)
    as (s' & lnew & Hrun2 & HA' & HB' & Hvals & Hsep').
  { intros l _ Hin. simpl in Hin. by apply elem_of_nil in Hin. }
  { unfold fuel_of. destruct HA1 as (_ & Hs & Hnd).
    pose proof (seg_length _ _ _ _ Hs Hnd). lia. }
  exists s', lnew. split; [|done].
  unfold AvlTree_copy_ctor. unfold bind at 1. unfold AvlTree_ctor. fold s1.
  unfold bind at 1. unfold get_head.
  destruct HA1 as (-> & _). unfold with_fuel. exact Hrun2.
Qed.

End Operations.

(** ** Error behaviour of remove *)

Section RemoveErrors.

Context {T : Type}.
Implicit Types (s : Store T).

Lemma no_throw_bind {A B} (c : M T A) (k : A → M T B) :
  no_throw c → (∀ a, no_throw (k a)) → no_throw (bind c k).
Proof.
  intros Hc Hk s e s'. unfold bind.
  destruct (c s) as [a s1| e1 s1|] eqn:E; [apply Hk| |done].
  by apply Hc in E.
Qed.

Lemma no_throw_ret {A} (a : A) : no_throw (T := T) (ret a).
Proof. done. Qed.

Lemma no_throw_load l : no_throw (T := T) (load l).
Proof. intros s e s'. unfold load. by destruct (nodes s !! l). Qed.

Lemma no_throw_store_next l p : no_throw (T := T) (store_next l p).
Proof. intros s e s'. unfold store_next. by destruct (nodes s !! l). Qed.

Lemma no_throw_store_previous l p : no_throw (T := T) (store_previous l p).
Proof. intros s e s'. unfold store_previous. by destruct (nodes s !! l). Qed.

Lemma no_throw_set_head this p : no_throw (T := T) (set_head this p).
Proof. intros s e s'. unfold set_head. by destruct (heads s !! this). Qed.

Lemma no_throw_delete_Node l : no_throw (T := T) (delete_Node l).
Proof. intros s e s'. unfold delete_Node. by destruct (nodes s !! l). Qed.

(** The two outcomes of the guards of remove (lines 326-331). *)
Lemma remove_cases s this (it : Iterator) (first : ptr) :
  heads s !! this = Some first →
  (remove this it s = Throw ElementNotFound s
   ∧ (first = None ∨ listPtr it ≠ Some this ∨ node it = None))
  ∨ ((∀ e s', remove this it s ≠ Throw e s')
     ∧ first ≠ None ∧ listPtr it = Some this ∧ node it ≠ None).
Proof.
  intros Hh. remember (remove this it s) as r eqn:Er.
  unfold remove in Er. unfold bind at 1 in Er. unfold get_head in Er.
  rewrite Hh in Er.
  destruct first as [f|]; [|left; subst r; auto].
  destruct it as [[nd|] owner]; cbn [node listPtr avlTreePtr] in *;
    [|left; subst r; auto].
  rewrite !bool_decide_eq_false_2 in Er by done. cbn [orb] in Er.
  destruct (decide (owner = Some this)) as [->|Hne].
  - rewrite bool_decide_eq_true_2, bool_decide_eq_false_2 in Er by done.
    cbn [negb orb] in Er. right. split; [|done].
    subst r. clear Hh. revert s. change (no_throw (T := T)
      ((do n <- load nd;
        match previous n with
        | Some prev => store_next prev (next n)
        | None => ret ()
        end);;
       (do n <- load nd;
        match next n with
        | Some nx => store_previous nx (previous n)
        | None => ret ()
        end);;
       (do n <- load nd;
        match previous n with
        | Some _ => ret ()
        | None => set_head this (next n)
        end);;
       delete_Node nd)).
    repeat first
      [ apply no_throw_load | apply no_throw_ret | apply no_throw_store_next
      | apply no_throw_store_previous | apply no_throw_set_head
      | apply no_throw_delete_Node
      | apply no_throw_bind; [|intros ?]
      | match goal with |- no_throw (match ?x with _ => _ end) => destruct x end ].
  - rewrite bool_decide_eq_false_2 in Er by done. cbn [negb orb] in Er.
    left. subst r. auto.
Qed.

(** C5. remove raises ElementNotFound exactly when the container is empty,
    or the iterator is owned by another container, or the iterator is the
    end sentinel; whenever remove raises, the store at the throw is the
    store it was called on.  The container object at [this] is live. *)
Theorem remove_throws_iff s this (it : Iterator) (first : ptr) :
  heads s !! this = Some first →
  ((∃ s', remove this it s = Throw ElementNotFound s')
   ↔ first = None ∨ listPtr it ≠ Some this ∨ node it = None)
  ∧ (∀ e s', remove this it s = Throw e s' → e = ElementNotFound ∧ s' = s).
Proof.
  intros Hh.
  destruct (remove_cases s this it first Hh) as [[Hthrow Hc]|(Hno & Hf & Ho & Hn)].
  - split.
    + split; [done|eauto].
    + intros e s' E. rewrite Hthrow in E. by injection E as <- <-.
  - split.
    + split; [intros [s' E]; by apply Hno in E|].
      intros [?|[?|?]]; done.
    + intros e s' E. by apply Hno in E.
Qed.

End RemoveErrors.

(** ** What remove does to the chain *)

Section RemoveEffect.

Context {T : Type}.
Implicit Types (s : Store T) (ls : list (loc * T)).

Lemma is_list_data s this ls x :
  is_list s this ls → x ∈ ls →
  ∃ n, nodes s !! x.1 = Some n ∧ data n = x.2.
Proof.
  intros (_ & Hs & _) Hx. apply list_elem_of_lookup in Hx as [i Hi].
  destruct (seg_lookup _ _ _ _ _ _ Hs Hi) as (n & ? & ? & _). eauto.
Qed.

(** Every live node other than the one removed keeps its stored value. *)
Lemma remove_keeps_data s s' this ls1 x ls2 :
  is_list s this (ls1 ++ x :: ls2) →
  is_list s' this (ls1 ++ ls2) →
  frame this (ls1 ++ x :: ls2) s s' →
  ∀ l n, l ≠ x.1 → nodes s !! l = Some n →
         ∃ n', nodes s' !! l = Some n' ∧ data n' = data n.
Proof.
  intros Hl Hl' [_ Hfr] l n Hne Hn.
  destruct (decide (l ∈ (ls1 ++ x :: ls2).*1)) as [Hin|Hnin].
  - apply list_elem_of_fmap in Hin as (y & -> & Hy).
    assert (Hy' : y ∈ ls1 ++ ls2).
    { apply elem_of_app. apply elem_of_app in Hy as [?|Hy]; [by left|].
      apply elem_of_cons in Hy as [->|?]; [done|by right]. }
    destruct (is_list_data _ _ _ _ Hl' Hy') as (n' & Hn' & Hd').
    destruct (is_list_data _ _ _ _ Hl Hy) as (n0 & Hn0 & Hd0).
    exists n'. split; [done|]. rewrite Hn in Hn0. injection Hn0 as <-. congruence.
  - exists n. split; [|done]. rewrite Hfr; [done| |done].
    apply elem_of_dom. eauto.
Qed.

(** C10. remove with an iterator at a node of the container returns; the
    node referenced is the one node freed, every other live node keeps its
    stored value, and the container holds one element less. *)
Theorem remove_deletes_exactly_one s this ls i x :
  is_list s this ls → ls !! i = Some x →
  ∃ s', remove this (iterator_at this ls i) s = Ret tt s'
    ∧ dom (nodes s') = dom (nodes s) ∖ {[x.1]}
    ∧ (∀ l n, l ≠ x.1 → nodes s !! l = Some n →
              ∃ n', nodes s' !! l = Some n' ∧ data n' = data n)
    ∧ contents s' this = delete i (contents s this)
    ∧ (length (contents s' this) + 1 = length (contents s this))%nat.
Proof.
  intros Hl Hi.
  destruct (remove_at_spec _ _ _ _ _ Hl Hi) as (s' & Hrun & Hdom & Hl' & Hfr).
  exists s'. split; [done|]. split; [done|].
  destruct (split_at _ _ _ Hi) as (ls1 & ls2 & E & _ & _ & Ed).
  split.
  { rewrite E in Hl, Hfr. rewrite Ed in Hl'. by eapply remove_keeps_data. }
  rewrite (contents_is_list _ _ _ Hl), (contents_is_list _ _ _ Hl').
  split.
  - rewrite !delete_take_drop, fmap_app, fmap_take, fmap_drop. done.
  - rewrite !length_fmap, length_delete by eauto.
    apply lookup_lt_Some in Hi. lia.
Qed.

(** X15.  On a well-formed container, for a node [x] that has both links
    set, lying between [p] and [q] in the chain, remove frees [x] itself and
    links [p] and [q] to each other; every other live node keeps its stored
    value, and the value sequence loses the removed position and nothing
    else. *)
Theorem remove_two_links_unlinks_target s this ls1 p x q ls2 :
  is_list s this (ls1 ++ p :: x :: q :: ls2) →
  ∃ s', remove this (Iterator_ctor (Some x.1) (Some this)) s = Ret tt s'
    ∧ (∃ n, nodes s !! x.1 = Some n ∧ left n = Some q.1 ∧ right n = Some p.1)
    ∧ nodes s' !! x.1 = None
    ∧ (∃ np nq, nodes s' !! p.1 = Some np ∧ next np = Some q.1
                ∧ nodes s' !! q.1 = Some nq ∧ previous nq = Some p.1)
    ∧ (∀ l n, l ≠ x.1 → nodes s !! l = Some n →
              ∃ n', nodes s' !! l = Some n' ∧ data n' = data n)
    ∧ contents s this = ls1.*2 ++ p.2 :: x.2 :: q.2 :: ls2.*2
    ∧ contents s' this = ls1.*2 ++ p.2 :: q.2 :: ls2.*2.
Proof.
  intros Hl.
  rewrite (cons_middle p ls1), app_assoc in Hl.
  destruct (remove_spec _ _ _ _ _ Hl) as (s' & Hrun & Hdom & Hl' & Hfr).
  exists s'. split; [done|].
  pose proof Hl as (_ & Hs & _). apply seg_app in Hs as [_ [Hx _]].
  rewrite last_of_snoc in Hx. cbn [first_of] in Hx.
  split; [eauto|].
  split.
  { apply not_elem_of_dom. rewrite Hdom.
    intros [_ Hc]%elem_of_difference. apply Hc. by apply elem_of_singleton. }
  split.
  { pose proof Hl' as (_ & Hs' & _). apply seg_app in Hs' as [Hs1 [Hq _]].
    apply seg_snoc in Hs1 as [_ Hp]. rewrite last_of_snoc in Hq.
    cbn [first_of] in Hp. eauto 10. }
  split; [by eapply remove_keeps_data|].
  rewrite (contents_is_list _ _ _ Hl), (contents_is_list _ _ _ Hl').
  rewrite <- !app_assoc, !fmap_app. done.
Qed.

End RemoveEffect.

(** ** Copies *)

Section Copies.

Context {T : Type}.
Implicit Types (s : Store T) (ls : list (loc * T)).

Lemma independent_copy_intro (copy : M T unit) s A B la os :
  A ≠ B → is_list s A la →
  (∃ s1 lb, copy s = Ret tt s1 ∧ is_list s1 A la ∧ is_list s1 B lb
            ∧ lb.*2 = la.*2 ∧ separate la lb) →
  independent_copy copy s A B os.
Proof.
  intros Hne HA (s1 & lb & Hrun & HA1 & HB1 & Hvals & Hsep).
  exists s1, la, lb. split; [done|]. split; [done|]. split; [done|]. split; [done|].
  rewrite (contents_is_list _ _ _ HA), (contents_is_list _ _ _ HA1),
    (contents_is_list _ _ _ HB1).
  split; [done|]. split; [done|].
  destruct (apply_ops_other s1 A la B lb os Hne HA1 HB1 Hsep)
    as (s2 & la2 & Hrun2 & _ & HB2 & _).
  exists s2. split; [done|]. by rewrite (contents_is_list _ _ _ HB2).
Qed.

(** The loops of the assignment B = A between two distinct containers, and
    the copy construction of a new container from A, make the target an
    independent copy: no node is shared, and inserts and removes on A
    leave its value sequence and its length unchanged.  Assigning a
    container to itself returns with the store unchanged. *)
Lemma copies_are_independent s A B la lb os :
  A ≠ B → is_list s A la → is_list s B lb → separate la lb →
  independent_copy (AvlTree_assign_loops B A) s A B os
  ∧ (∀ C, C ≠ A → independent_copy (AvlTree_copy_ctor C A) s A C os)
  ∧ AvlTree_assign A A s = Ret tt s.
Proof.
  intros Hne HA HB Hsep. split; [|split].
  - apply (independent_copy_intro _ _ _ _ la); [done..|].
    destruct (assign_spec s A B la lb Hne HA HB Hsep) as (s1 & lb' & ?).
    exists s1, lb'. tauto.
  - intros C HC. apply (independent_copy_intro _ _ _ _ la); [done..|].
    destruct (copy_ctor_spec s A C la) as (s1 & lb' & ?); [done..|].
    exists s1, lb'. tauto.
  - unfold AvlTree_assign. by rewrite bool_decide_eq_true_2.
Qed.

(** Between two distinct containers operator= does not return. *)
Lemma assign_does_not_return s A B s' :
  A ≠ B → AvlTree_assign B A s ≠ Ret tt s'.
Proof.
  intros Hne. unfold AvlTree_assign. rewrite bool_decide_eq_false_2 by done.
  unfold bind. by destruct (AvlTree_assign_loops B A s).
Qed.

End Copies.

Section Integers.

Ltac concrete_list :=
  split; [reflexivity|split;
    [simpl; repeat split; reflexivity
    |apply (bool_decide_unpack _); vm_compute; exact I]].

Lemma chain_12 : chain_of [1; 2] = Some s12.
Proof. vm_compute. reflexivity. Qed.

Lemma chain_13 : chain_of [1; 3] = Some s13.
Proof. vm_compute. reflexivity. Qed.

Lemma chain_123 : chain_of [1; 2; 3] = Some s123.
Proof. vm_compute. reflexivity. Qed.

Lemma chain_132 : chain_of [1; 3; 2] = Some s132.
Proof. vm_compute. reflexivity. Qed.

Lemma chain_213 : chain_of [2; 1; 3] = Some s213.
Proof. vm_compute. reflexivity. Qed.

Lemma s_two_built :
  (AvlTree_ctor A0;; insert A0 1 (end_of A0);; insert A0 2 (end_of A0);;
   AvlTree_ctor B0;; insert B0 7 (end_of B0)) (mkStore ∅ ∅)
  = Ret tt s_two.
Proof. vm_compute. reflexivity. Qed.

Lemma chain_of_reachable vs s : chain_of vs = Some s → reachable A0 s.
Proof. intros H. by exists (appends vs). Qed.

Lemma s13_list : is_list s13 A0 [(1%positive, 1); (2%positive, 3)].
Proof. concrete_list. Defined.

Lemma s123_list :
  is_list s123 A0 [(1%positive, 1); (2%positive, 2); (3%positive, 3)].
Proof. concrete_list. Defined.

Lemma s132_list :
  is_list s132 A0 [(1%positive, 1); (2%positive, 3); (3%positive, 2)].
Proof. concrete_list. Defined.

Lemma s_two_list_A : is_list s_two A0 [(1%positive, 1); (2%positive, 2)].
Proof. concrete_list. Defined.

Lemma s_two_list_B : is_list s_two B0 [(3%positive, 7)].
Proof. concrete_list. Defined.

(** No node of the chain 1, 2, 3 has a height: each has a child, and the
    links [left] and [right] of neighbours point at each other. *)
Lemma s123_no_height p z : Height (nodes s123) p z → p = None.
Proof.
  induction 1 as [|l n zl zr Hn Hl IHl Hr IHr]; [done|]. exfalso.
  assert (Hcases : l = 1%positive ∨ l = 2%positive ∨ l = 3%positive).
  { destruct (decide (l = 1%positive)) as [|H1]; [auto|].
    destruct (decide (l = 2%positive)) as [|H2]; [auto|].
    destruct (decide (l = 3%positive)) as [|H3]; [auto|].
    exfalso. unfold s123 in Hn. simpl in Hn.
    by rewrite !lookup_insert_ne, lookup_empty in Hn. }
  destruct Hcases as [-> | [-> | ->] ]; vm_compute in Hn; injection Hn as <-;
    simpl in *; congruence.
Qed.

(** C1, at insert(1), insert(2), insert(3).  The three calls that the
    header documents as keeping a legal AVL tree leave the chain 1, 2, 3:
    the first node has two nodes below its [left] link and none below its
    [right] link, no rotation has taken place, and no node has a balance
    factor in -1..1. *)
Theorem three_appends_unbalanced :
  chain_of [1; 2; 3] = Some s123
  ∧ reachable A0 s123
  ∧ ¬ balanced s123
  ∧ (∀ l, ¬ balanced_at (nodes s123) l)
  ∧ ∃ n, heads s123 !! A0 = Some (Some 1%positive)
         ∧ nodes s123 !! 1%positive = Some n
         ∧ right n = None
         ∧ left_depth (fuel_of s123) (nodes s123) (left n) = 2.
Proof.
  assert (Hno : ∀ l, ¬ balanced_at (nodes s123) l).
  { intros l (n & hl & hr & Hn & Hl & Hr & _).
    assert (Hcases : l = 1%positive ∨ l = 2%positive ∨ l = 3%positive).
    { destruct (decide (l = 1%positive)) as [|H1]; [auto|].
      destruct (decide (l = 2%positive)) as [|H2]; [auto|].
      destruct (decide (l = 3%positive)) as [|H3]; [auto|].
      exfalso. unfold s123 in Hn. simpl in Hn.
      by rewrite !lookup_insert_ne, lookup_empty in Hn. }
    destruct Hcases as [-> | [-> | ->] ]; vm_compute in Hn; injection Hn as <-;
      simpl in *;
      first [ by apply s123_no_height in Hl | by apply s123_no_height in Hr ]. }
  split; [exact chain_123|]. split; [exact (chain_of_reachable _ _ chain_123)|].
  split; [|split; [exact Hno|]].
  - intros Hb. apply (Hno 1%positive), Hb. by apply elem_of_dom.
  - eexists. repeat split; reflexivity.
Qed.

(** C2, at insert(1), insert(3), insert(2).  The traversal of the
    container, from its first node along [next], meets 1, 3, 2; this is
    non-decreasing neither in that direction nor in the opposite one. *)
Theorem appends_not_sorted :
  chain_of [1; 3; 2] = Some s132
  ∧ reachable A0 s132
  ∧ contents s132 A0 = [1; 3; 2]
  ∧ nondecreasing (contents s132 A0) = false
  ∧ nondecreasing (rev (contents s132 A0)) = false.
Proof.
  split; [exact chain_132|]. split; [exact (chain_of_reachable _ _ chain_132)|].
  repeat split; reflexivity.
Qed.

(** C3, at the container holding 1, 3.  insert compares nothing: whatever
    the value, insert with the end iterator puts it behind 3; so 2 and 0 do
    not arrive at their positions in the order. *)
Theorem insert_ignores_order :
  chain_of [1; 3] = Some s13
  ∧ (∀ v, ∃ s', insert A0 v (end_of A0) s13 = Ret tt s'
               ∧ contents s' A0 = [1; 3; v])
  ∧ ∃ s', insert A0 2 (end_of A0) s13 = Ret tt s'
          ∧ contents s' A0 = [1; 3; 2]
          ∧ nondecreasing (contents s' A0) = false.
Proof.
  split; [exact chain_13|]. split.
  - intros v.
    destruct (insert_end_spec s13 A0 _ v s13_list) as (l & s' & Hrun & _ & _ & Hl & _).
    exists s'. split; [done|]. by rewrite (contents_is_list _ _ _ Hl).
  - eexists. split; [vm_compute; reflexivity|]. split; reflexivity.
Qed.

(** C7, at the container holding 1, 2.  The backward step on the end
    iterator throws; the backward step on the iterator that begin returns
    does not throw and moves to the node that follows, which holds 2. *)
Theorem decrement_boundaries :
  chain_of [1; 2] = Some s12
  ∧ (∀ (s : Store Z) this,
       Iterator_decr (end_of this) s = Throw IllegealOperationException s)
  ∧ Iterator_decr (end_of A0) s12 = Throw IllegealOperationException s12
  ∧ begin_ A0 s12 = Ret (Iterator_ctor (Some 1%positive) (Some A0)) s12
  ∧ Iterator_deref (Iterator_ctor (Some 1%positive) (Some A0)) s12 = Ret 1 s12
  ∧ Iterator_decr (Iterator_ctor (Some 1%positive) (Some A0)) s12
    = Ret (Iterator_ctor (Some 2%positive) (Some A0),
           Iterator_ctor (Some 2%positive) (Some A0)) s12
  ∧ Iterator_deref (Iterator_ctor (Some 2%positive) (Some A0)) s12 = Ret 2 s12.
Proof. split; [exact chain_12|]. repeat split; reflexivity. Qed.

(** C8, at insert(2), insert(1), insert(3) and the predicate 0 < v.
    Whatever the prefix increment does, find returns the iterator at the
    first node of the chain, which holds 2, although 1 is stored and
    satisfies the predicate. *)
Theorem find_returns_first_of_chain
    (prefix_incr : Iterator → M Z Iterator) :
  chain_of [2; 1; 3] = Some s213
  ∧ contents s213 A0 = [2; 1; 3]
  ∧ find prefix_incr A0 (fun v => 0 <? v) s213
    = Ret (Iterator_ctor (Some 1%positive) (Some A0)) s213
  ∧ Iterator_deref (Iterator_ctor (Some 1%positive) (Some A0)) s213 = Ret 2 s213.
Proof. split; [exact chain_213|]. repeat split; reflexivity. Qed.

(** No node of the chain 1, 3 that the removal leaves has a height: the
    links [left] and [right] of the two nodes point at each other. *)
Lemma s123_without_2_no_height p z :
  Height (nodes s123_without_2) p z → p = None.
Proof.
  induction 1 as [|l n zl zr Hn Hl IHl Hr IHr]; [done|]. exfalso.
  assert (Hcases : l = 1%positive ∨ l = 3%positive).
  { destruct (decide (l = 1%positive)) as [|H1]; [auto|].
    destruct (decide (l = 3%positive)) as [|H3]; [auto|].
    exfalso. unfold s123_without_2 in Hn. simpl in Hn.
    by rewrite !lookup_insert_ne, lookup_empty in Hn. }
  destruct Hcases as [-> | ->]; vm_compute in Hn; injection Hn as <-;
    simpl in *; congruence.
Qed.

(** C4, at insert(1), insert(2), insert(3) and remove with the iterator at
    the node holding 2.  The container that the header documents as a
    legal AVL tree is the chain 1, 2, 3; the node holding 2 has its [left]
    and [right] links both set, to its two neighbours.  remove, documented
    as keeping the tree a legal AVL tree, frees that very node and links
    the two others to each other, and they keep 1 and 3: no stored content
    is exchanged with a successor, no successor is spliced out, and what is
    left is again a chain in which no node has a balance factor in -1..1. *)
Theorem remove_does_not_swap :
  chain_of [1; 2; 3] = Some s123
  ∧ reachable A0 s123
  ∧ (∃ n, nodes s123 !! 2%positive = Some n
          ∧ left n = Some 3%positive ∧ right n = Some 1%positive)
  ∧ remove A0 (Iterator_ctor (Some 2%positive) (Some A0)) s123
    = Ret tt s123_without_2
  ∧ nodes s123_without_2 !! 2%positive = None
  ∧ (∀ l n, l ≠ 2%positive → nodes s123 !! l = Some n →
            ∃ n', nodes s123_without_2 !! l = Some n' ∧ data n' = data n)
  ∧ contents s123_without_2 A0 = [1; 3]
  ∧ ¬ swapped_and_spliced s123 2%positive s123_without_2
  ∧ ¬ balanced s123_without_2
  ∧ (∀ l, ¬ balanced_at (nodes s123_without_2) l).
Proof.
  assert (Hno : ∀ l, ¬ balanced_at (nodes s123_without_2) l).
  { intros l (n & hl & hr & Hn & Hl & Hr & _).
    assert (Hcases : l = 1%positive ∨ l = 3%positive).
    { destruct (decide (l = 1%positive)) as [|H1]; [auto|].
      destruct (decide (l = 3%positive)) as [|H3]; [auto|].
      exfalso. unfold s123_without_2 in Hn. simpl in Hn.
      by rewrite !lookup_insert_ne, lookup_empty in Hn. }
    destruct Hcases as [-> | ->]; vm_compute in Hn; injection Hn as <-;
      simpl in *;
      first [ by apply s123_without_2_no_height in Hl
            | by apply s123_without_2_no_height in Hr ]. }
  split; [exact chain_123|]. split; [exact (chain_of_reachable _ _ chain_123)|].
  split; [eexists; repeat split; reflexivity|].
  split; [vm_compute; reflexivity|].
  split; [reflexivity|].
  split.
  { intros l n Hl Hn.
    destruct (decide (l = 1%positive)) as [->|H1];
      [vm_compute in Hn; injection Hn as <-; by eexists|].
    destruct (decide (l = 3%positive)) as [->|H3];
      [vm_compute in Hn; injection Hn as <-; by eexists|].
    exfalso. unfold s123 in Hn. simpl in Hn.
    by rewrite !lookup_insert_ne, lookup_empty in Hn. }
  split; [reflexivity|].
  split.
  { intros (succ & ns & nt & _ & _ & _ & Hnt & _). vm_compute in Hnt. done. }
  split; [|exact Hno].
  intros Hb. apply (Hno 1%positive), Hb. by apply elem_of_dom.
Qed.

(** C5 at the chain 1, 3, 2 and the end iterator. *)
Lemma remove_throws_iff_witness :
  heads s132 !! A0 = Some (Some 1%positive)
  ∧ (((∃ s', remove A0 (end_of A0) s132 = Throw ElementNotFound s')
      ↔ Some 1%positive = None ∨ listPtr (end_of A0) ≠ Some A0
        ∨ node (@end_of A0) = None)
     ∧ (∀ e s', remove A0 (end_of A0) s132 = Throw e s'
                → e = ElementNotFound ∧ s' = s132)).
Proof. split; [reflexivity|]. apply remove_throws_iff. reflexivity. Defined.

(** C10 at the chain 1, 3, 2 and the iterator at its second node. *)
Lemma remove_deletes_exactly_one_witness :
  is_list s132 A0 [(1%positive, 1); (2%positive, 3); (3%positive, 2)]
  ∧ [(1%positive, 1); (2%positive, 3); (3%positive, 2)] !! 1%nat
    = Some (2%positive, 3)
  ∧ ∃ s', remove A0
            (iterator_at A0 [(1%positive, 1); (2%positive, 3); (3%positive, 2)] 1)
            s132 = Ret tt s'
      ∧ dom (nodes s') = dom (nodes s132) ∖ {[2%positive]}
      ∧ (∀ l n, l ≠ 2%positive → nodes s132 !! l = Some n →
                ∃ n', nodes s' !! l = Some n' ∧ data n' = data n)
      ∧ contents s' A0 = delete 1%nat (contents s132 A0)
      ∧ (length (contents s' A0) + 1 = length (contents s132 A0))%nat.
Proof.
  split; [exact s132_list|]. split; [reflexivity|].
  apply (remove_deletes_exactly_one s132 A0 _ 1 (2%positive, 3));
    [exact s132_list|reflexivity].
Defined.

(** X15 at the chain 1, 2, 3 and the iterator at the node holding 2. *)
Lemma remove_two_links_unlinks_target_witness :
  is_list s123 A0 ([] ++ (1%positive, 1) :: (2%positive, 2) :: (3%positive, 3) :: [])
  ∧ ∃ s', remove A0 (Iterator_ctor (Some 2%positive) (Some A0)) s123 = Ret tt s'
      ∧ (∃ n, nodes s123 !! 2%positive = Some n
              ∧ left n = Some 3%positive ∧ right n = Some 1%positive)
      ∧ nodes s' !! 2%positive = None
      ∧ (∃ np nq, nodes s' !! 1%positive = Some np ∧ next np = Some 3%positive
                  ∧ nodes s' !! 3%positive = Some nq
                  ∧ previous nq = Some 1%positive)
      ∧ (∀ l n, l ≠ 2%positive → nodes s123 !! l = Some n →
                ∃ n', nodes s' !! l = Some n' ∧ data n' = data n)
      ∧ contents s123 A0 = [] ++ 1 :: 2 :: 3 :: []
      ∧ contents s' A0 = [] ++ 1 :: 3 :: [].
Proof.
  split; [exact s123_list|].
  apply (remove_two_links_unlinks_target s123 A0 []
           (1%positive, 1) (2%positive, 2) (3%positive, 3) []).
  exact s123_list.
Defined.

Lemma separate_A_B :
  separate [(1%positive, 1); (2%positive, 2)] [(3%positive, 7)].
Proof.
  intros l Hl Hl'. simpl in Hl, Hl'.
  apply list_elem_of_singleton in Hl' as ->.
  apply (bool_decide_pack _) in Hl. vm_compute in Hl. exact Hl.
Qed.

(** C9, at the containers holding 1, 2 and 7 and the assignment of the
    first to the second.  The two loops of operator= make the second an
    independent copy of the first, whatever is inserted into or removed
    from the first afterwards, and so does the copy constructor at a new
    address; assigning a container to itself returns and changes nothing.
    But behind the loops operator= reaches the end of the function
    without a return statement: the assignment between two distinct
    containers never returns, its behaviour is undefined. *)
Theorem assignment_reaches_end_without_return :
  AvlTree_assign B0 A0 s_two = Undefined
  ∧ (∀ (s s' : Store Z) A B, A ≠ B → AvlTree_assign B A s ≠ Ret tt s')
  ∧ (∀ os, independent_copy (AvlTree_assign_loops B0 A0) s_two A0 B0 os)
  ∧ (∀ os, independent_copy (AvlTree_copy_ctor 3%positive A0) s_two A0 3%positive os)
  ∧ AvlTree_assign A0 A0 s_two = Ret tt s_two.
Proof.
  split; [vm_compute; reflexivity|].
  split; [intros s s' A B Hne; by apply assign_does_not_return|].
  assert (H : ∀ os,
    independent_copy (AvlTree_assign_loops B0 A0) s_two A0 B0 os
    ∧ (∀ C, C ≠ A0 → independent_copy (AvlTree_copy_ctor C A0) s_two A0 C os)
    ∧ AvlTree_assign A0 A0 s_two = Ret tt s_two).
  { intros os. apply (copies_are_independent s_two A0 B0
      [(1%positive, 1); (2%positive, 2)] [(3%positive, 7)]);
      [done|exact s_two_list_A|exact s_two_list_B|exact separate_A_B]. }
  split; [intros os; apply (H os)|].
  split; [intros os; by apply (H os)|].
  apply (H []).
Qed.

End Integers.

Section ForwardStep.

Import SpecIterator.

Context {T : Type}.
Implicit Types (t : tree T) (r : ref).

Lemma descend_app t p q :
  descend t (p ++ q) = descend t p ≫= λ t', descend t' q.
Proof.
  revert t. induction p as [|d p IH]; intros t; simpl; [done|].
  destruct t; [done|]. apply IH.
Qed.

Lemma subtree_at_child t0 r l v rt :
  subtree_at t0 r = Some (Br l v rt) →
  subtree_at t0 (GoLeft :: r) = Some l ∧ subtree_at t0 (GoRight :: r) = Some rt.
Proof.
  unfold subtree_at. simpl. intros H. rewrite !descend_app, H. done.
Qed.



Lemma inorder_refs_node t0 t r x :
  subtree_at t0 r = Some t → x ∈ inorder_refs t r →
  ∃ l v rt, subtree_at t0 x = Some (Br l v rt).
Proof.
  revert r. induction t as [|l IHl v rt IHr]; intros r Ht Hx.
  - by apply elem_of_nil in Hx.
  - destruct (subtree_at_child _ _ _ _ _ Ht) as [Hl Hr].
    cbn [inorder_refs] in Hx.
    apply elem_of_app in Hx as [Hx|Hx]; [by eapply IHl|].
    apply elem_of_cons in Hx as [->|Hx]; [eauto|by eapply IHr].
Qed.



End ForwardStep.

Section ForwardStepStore.

Import SpecIterator.

Context {T : Type}.
Implicit Types (t : tree (loc * T)) (x y : loc * T) (r : ref).
Implicit Types (h : gmap loc (Node T)) (par : gmap loc loc) (s : Store T).










End ForwardStepStore.

Section ForwardStepWitness.

Import SpecIterator.



End ForwardStepWitness.

(** ** Further properties of the operations *)

Section InsertErrors.

Context {T : Type}.
Implicit Types (s : Store T).

Lemma no_throw_new_Node (d : T) l r : no_throw (new_Node d l r).
Proof. done. Qed.

Lemma no_throw_undefined {A} : no_throw (T := T) (undefined (A := A)).
Proof. done. Qed.

Lemma no_throw_get_head this : no_throw (T := T) (get_head this).
Proof. intros s e s'. unfold get_head. by destruct (heads s !! this). Qed.

Lemma no_throw_last_node fuel l : no_throw (T := T) (last_node fuel l).
Proof.
  revert l. induction fuel as [|fuel IH]; intros l; simpl; [done|].
  apply no_throw_bind; [apply no_throw_load|]. intros n.
  destruct (next n); [apply IH|apply no_throw_ret].
Qed.

Lemma no_throw_with_fuel {A} (body : nat → M T A) :
  (∀ fuel, no_throw (body fuel)) → no_throw (with_fuel body).
Proof. intros H s e s'. apply H. Qed.

(** X1. insert raises ElementNotFound exactly when the iterator is owned
    by another container (or by none); it raises nothing else, and when
    it raises the store is the one it was called on.  An empty container
    and the end iterator are no error. *)
Theorem insert_throws_iff s this (d : T) (it : Iterator) :
  ((∃ s', insert this d it s = Throw ElementNotFound s')
   ↔ listPtr it ≠ Some this)
  ∧ (∀ e s', insert this d it s = Throw e s' → e = ElementNotFound ∧ s' = s).
Proof.
  unfold insert.
  destruct (decide (listPtr it = Some this)) as [Ho|Ho].
  - rewrite bool_decide_eq_true_2 by done. cbn [negb].
    match goal with
    | |- context [?body s = Throw _ _] => assert (Hbody : no_throw body)
    end.
    { destruct (node it) as [nd|].
      - apply no_throw_bind; [apply no_throw_load|]. intros n.
        apply no_throw_bind; [apply no_throw_new_Node|]. intros l.
        apply no_throw_bind; [apply no_throw_store_previous|]. intros _.
        destruct (previous n); [apply no_throw_store_next|apply no_throw_set_head].
      - apply no_throw_bind; [apply no_throw_get_head|]. intros [f|].
        + apply no_throw_bind.
          { apply no_throw_with_fuel. intros fuel. apply no_throw_last_node. }
          intros l. apply no_throw_bind; [apply no_throw_new_Node|]. intros l'.
          apply no_throw_store_next.
        + apply no_throw_bind; [apply no_throw_new_Node|]. intros l.
          apply no_throw_set_head. }
    split.
    + split; [intros [s' E]; by apply Hbody in E|done].
    + intros e s' E. by apply Hbody in E.
  - rewrite bool_decide_eq_false_2 by done. cbn [negb]. split.
    + split; [done|eauto].
    + by intros e s' [= <- <-].
Qed.

End InsertErrors.

Section Positions.

Context {T : Type}.
Implicit Types (s : Store T) (ls : list (loc * T)).

Lemma seg_agree (h h' : gmap loc (Node T)) before ls after l :
  seg h before ls after → seg h' before ls after → l ∈ ls.*1 →
  h' !! l = h !! l.
Proof.
  revert before. induction ls as [|x ls IH]; intros before Hs Hs' Hl.
  - by apply elem_of_nil in Hl.
  - destruct Hs as [Hx Hs], Hs' as [Hx' Hs'].
    rewrite fmap_cons in Hl. apply elem_of_cons in Hl as [->|Hl].
    + by rewrite Hx, Hx'.
    + by apply (IH (Some x.1)).
Qed.

Lemma insert_keeps_data s s' this ls ls' :
  is_list s this ls → is_list s' this ls' →
  (∀ x, x ∈ ls → x ∈ ls') →
  frame this ls s s' →
  ∀ l n, nodes s !! l = Some n →
         ∃ n', nodes s' !! l = Some n' ∧ data n' = data n.
Proof.
  intros Hl Hl' Hsub [_ Hfr] l n Hn.
  destruct (decide (l ∈ ls.*1)) as [Hin|Hnin].
  - apply list_elem_of_fmap in Hin as (y & -> & Hy).
    destruct (is_list_data _ _ _ _ Hl' (Hsub _ Hy)) as (n' & Hn' & Hd').
    destruct (is_list_data _ _ _ _ Hl Hy) as (n0 & Hn0 & Hd0).
    exists n'. split; [done|]. rewrite Hn in Hn0. injection Hn0 as <-. congruence.
  - exists n. split; [|done]. rewrite Hfr; [done| |done].
    apply elem_of_dom. eauto.
Qed.

(** X2. On a well-formed container, insert with the iterator at position
    [i] returns and puts the new value in front of the element at that
    position, behind the last element when the iterator is the end
    iterator; the new node is a newly allocated one, and every node that
    was live keeps its stored value. *)
Theorem insert_places_at_iterator s this ls (v : T) i :
  is_list s this ls →
  ∃ l s', insert this v (iterator_nth s this i) s = Ret tt s'
    ∧ (l ∉ dom (nodes s))
    ∧ (∃ n, nodes s' !! l = Some n ∧ data n = v)
    ∧ is_list s' this (take i ls ++ (l, v) :: drop i ls)
    ∧ contents s' this = take i (contents s this) ++ v :: drop i (contents s this)
    ∧ length (contents s' this) = S (length (contents s this))
    ∧ (∀ l0 n, nodes s !! l0 = Some n →
               ∃ n', nodes s' !! l0 = Some n' ∧ data n' = data n).
Proof.
  intros Hl. rewrite (iterator_nth_is_list _ _ _ _ Hl).
  destruct (insert_at_spec _ _ _ v i Hl) as (l & s' & Hrun & Hfresh & _ & Hl' & Hfr).
  exists l, s'. split; [done|]. split; [done|].
  split.
  { apply (is_list_data _ _ _ (l, v) Hl').
    apply elem_of_app. right. left. }
  split; [done|].
  rewrite (contents_is_list _ _ _ Hl), (contents_is_list _ _ _ Hl').
  split; [by rewrite fmap_app, fmap_cons, fmap_take, fmap_drop|].
  split.
  { rewrite !length_fmap, length_app. cbn [length].
    rewrite <- (take_drop i ls) at 3. rewrite length_app. lia. }
  eapply insert_keeps_data; [exact Hl|exact Hl'| |exact Hfr].
  intros x Hx. rewrite <- (take_drop i ls) in Hx.
  apply elem_of_app in Hx as [?|?]; apply elem_of_app; [by left|right; by right].
Qed.

(** X3. On a well-formed container, insert followed by remove with the
    iterator at the node just inserted gives back the store insert was
    called on: links, values, head and live addresses. *)
Theorem insert_remove_round_trip s this ls (v : T) i :
  is_list s this ls →
  ∃ s1, insert this v (iterator_nth s this i) s = Ret tt s1
    ∧ (length (contents s1 this) = S (length (contents s this)))
    ∧ remove this (iterator_nth s1 this (i `min` length ls)) s1 = Ret tt s.
Proof.
  intros Hl. rewrite (iterator_nth_is_list _ _ _ _ Hl).
  destruct (insert_at_spec _ _ _ v i Hl)
    as (l & s1 & Hrun & Hfresh & Hdom1 & Hl1 & Hfr1).
  exists s1. split; [done|].
  split.
  { rewrite (contents_is_list _ _ _ Hl), (contents_is_list _ _ _ Hl1).
    rewrite !length_fmap, length_app. cbn [length].
    rewrite <- (take_drop i ls) at 3. rewrite length_app. lia. }
  rewrite (iterator_nth_is_list _ _ _ _ Hl1). unfold iterator_at.
  rewrite lookup_app_r by (rewrite length_take; lia).
  rewrite length_take. replace (i `min` length ls - i `min` length ls)%nat with 0%nat by lia.
  cbn [lookup list_lookup fmap option_fmap option_map fst].
  destruct (remove_spec s1 this (take i ls) (l, v) (drop i ls) Hl1)
    as (s2 & Hrun2 & Hdom2 & Hl2 & Hfr2).
  cbn [fst] in Hrun2, Hdom2. rewrite Hrun2. f_equal.
  rewrite take_drop in Hl2.
  destruct s as [ns hs], s2 as [ns2 hs2]. cbn [nodes heads] in *. f_equal.
  - apply map_eq. intros l0.
    destruct (decide (l0 ∈ ls.*1)) as [Hin|Hnin].
    + destruct Hl as (_ & Hs & _), Hl2 as (_ & Hs2 & _). cbn [nodes] in *.
      by apply (seg_agree _ _ _ _ _ _ Hs Hs2).
    + destruct (decide (l0 ∈ dom ns)) as [Hd|Hd].
      * destruct Hfr1 as [_ Hf1], Hfr2 as [_ Hf2]. cbn [nodes] in *.
        assert (Hne : l0 ≠ l) by (intros ->; done).
        rewrite Hf2, Hf1; [done..| |].
        -- rewrite Hdom1. apply elem_of_union. by right.
        -- rewrite fmap_app, fmap_cons, elem_of_app, elem_of_cons.
           intros [Hin|[?|Hin]]; [|done|]; apply Hnin;
             apply list_elem_of_fmap in Hin as (y & -> & Hy);
             apply list_elem_of_fmap; exists y; (split; [done|]);
             eapply elem_of_sublist; eauto using sublist_take, sublist_drop.
      * rewrite (proj1 (not_elem_of_dom ns l0) Hd).
        apply not_elem_of_dom. rewrite Hdom2, Hdom1.
        intros [[Hin|Hin]%elem_of_union Hnl]%elem_of_difference; [done|done].
  - apply map_eq. intros a.
    destruct (decide (a = this)) as [->|Hne].
    + destruct Hl as (Hh & _), Hl2 as (Hh2 & _). cbn [heads] in *. by rewrite Hh, Hh2.
    + destruct Hfr1 as [Hf1 _], Hfr2 as [Hf2 _]. cbn [heads] in *.
      by rewrite Hf2, Hf1.
Qed.

End Positions.

Section Iteration.

Context {T : Type}.
Implicit Types (s : Store T) (ls : list (loc * T)).

Lemma is_list_node s this ls i x :
  is_list s this ls → ls !! i = Some x →
  nodes s !! x.1
  = Some (mkNode (fst <$> ls !! S i) (last_of None (take i ls)) x.2).
Proof.
  intros (_ & Hs & _) Hi.
  destruct (seg_lookup _ _ _ _ _ _ Hs Hi) as (n & Hn & Hd & Hnx & Hpv).
  rewrite Hn. f_equal. destruct n as [nl nr nd]. unfold next, previous in *.
  simpl in *. subst. f_equal.
  rewrite <- (take_drop_middle ls i x Hi) at 2.
  rewrite lookup_app_r by (rewrite length_take; lia).
  rewrite length_take_le by (apply lookup_lt_Some in Hi; lia).
  replace (S i - i)%nat with 1%nat by lia. simpl.
  by destruct (drop (S i) ls).
Qed.

(** X4. On a well-formed container, dereferencing the iterator at
    position [i] returns the [i]-th value of the traversal and leaves the
    store as it is; dereferencing the end iterator raises
    ElementNotFound. *)
Theorem deref_at_position s this ls i :
  is_list s this ls →
  Iterator_deref (iterator_nth s this i) s
  = match contents s this !! i with
    | Some v => Ret v s
    | None => Throw ElementNotFound s
    end.
Proof.
  intros Hl. rewrite (iterator_nth_is_list _ _ _ _ Hl), (contents_is_list _ _ _ Hl).
  unfold Iterator_deref, iterator_at. rewrite list_lookup_fmap.
  destruct (ls !! i) as [x|] eqn:Hi; simpl; [|done].
  unfold bind, load. by rewrite (is_list_node _ _ _ _ _ Hl Hi).
Qed.

Lemma Iterator_decr_at s this ls i :
  is_list s this ls →
  Iterator_decr (iterator_at this ls i) s
  = if decide (i < length ls)%nat
    then Ret (iterator_at this ls (S i), iterator_at this ls (S i)) s
    else Throw IllegealOperationException s.
Proof.
  intros Hl. unfold Iterator_decr, iterator_at.
  destruct (decide (i < length ls)%nat) as [Hlt|Hge].
  - destruct (lookup_lt_is_Some_2 ls i Hlt) as [x Hi]. rewrite Hi. simpl.
    unfold bind, load. by rewrite (is_list_node _ _ _ _ _ Hl Hi).
  - by rewrite lookup_ge_None_2 by lia.
Qed.

(** X5. On a well-formed container, operator-- on the iterator at
    position [i] moves it to position [i + 1], which is the end iterator
    when [i] is the last position, and returns the moved iterator; on the
    end iterator it raises IllegalOperation.  The store is left as it is. *)
Theorem decrement_moves_to_next s this ls i :
  is_list s this ls →
  Iterator_decr (iterator_nth s this i) s
  = if decide (i < length ls)%nat
    then Ret (iterator_nth s this (S i), iterator_nth s this (S i)) s
    else Throw IllegealOperationException s.
Proof.
  intros Hl. rewrite !(iterator_nth_is_list _ _ _ _ Hl).
  by apply Iterator_decr_at.
Qed.

(** X6. On a well-formed container, the iterators at two positions up to
    the end compare equal exactly when the positions are the same, and
    operator!= is the negation; begin and end return equal iterators
    exactly when the container is empty; an iterator of another container
    is never equal. *)
Theorem iterators_equal_iff_same_position s this ls i j :
  is_list s this ls → (i ≤ length ls)%nat → (j ≤ length ls)%nat →
  (Iterator_eq (iterator_nth s this i) (iterator_nth s this j) = true ↔ i = j)
  ∧ Iterator_neq (iterator_nth s this i) (iterator_nth s this j)
    = negb (Iterator_eq (iterator_nth s this i) (iterator_nth s this j))
  ∧ (∃ b e, begin_ this s = Ret b s ∧ end_ this s = Ret e s
            ∧ (Iterator_eq b e = true ↔ contents s this = []))
  ∧ (∀ other nd, other ≠ Some this →
       Iterator_eq (iterator_nth s this i) (Iterator_ctor nd other) = false).
Proof.
  intros Hl Hi Hj. rewrite !(iterator_nth_is_list _ _ _ _ Hl).
  split; [|split; [done|split]].
  - unfold Iterator_eq, iterator_at. simpl.
    rewrite (bool_decide_eq_true_2 (Some this = Some this)) by done.
    rewrite andb_true_r.
    rewrite bool_decide_eq_true. split; [|by intros ->].
    intros E. destruct Hl as (_ & _ & Hnd).
    destruct (ls !! i) as [x|] eqn:Ei, (ls !! j) as [y|] eqn:Ej; simpl in E;
      try done.
    + injection E as E.
      apply (NoDup_lookup _ i j x.1 Hnd).
      * by rewrite list_lookup_fmap, Ei.
      * by rewrite list_lookup_fmap, Ej, E.
    + apply lookup_ge_None in Ei, Ej. lia.
  - exists (Iterator_ctor (first_of ls None) (Some this)), (end_of this).
    split. { unfold begin_, bind, get_head. destruct Hl as (-> & _). done. }
    split; [done|].
    rewrite (contents_is_list _ _ _ Hl). unfold Iterator_eq. simpl.
    rewrite (bool_decide_eq_true_2 (Some this = Some this)) by done.
    rewrite andb_true_r.
    rewrite bool_decide_eq_true. destruct ls; simpl; split; done.
  - intros other nd Ho. unfold Iterator_eq, iterator_at. simpl.
    rewrite (bool_decide_eq_false_2 (Some this = other)) by done.
    apply andb_false_r.
Qed.

Section Find.

Variable prefix_incr : Iterator → M T Iterator.

Lemma find_loop_spec s this ls (predicate : T → bool) fuel i k :
  is_list s this ls →
  (∀ j x, ls !! j = Some x →
          prefix_incr (iterator_at this ls j) s = Ret (iterator_at this ls (S j)) s) →
  (i ≤ k)%nat → (k ≤ length ls)%nat → (k - i < fuel)%nat →
  (∀ j x, (i ≤ j < k)%nat → ls !! j = Some x → predicate x.2 = false) →
  (∀ x, ls !! k = Some x → predicate x.2 = true) →
  find_loop prefix_incr fuel this predicate (iterator_at this ls i) s
  = Ret (iterator_at this ls k) s.
Proof.
  intros Hl Hstep. revert i.
  induction fuel as [|fuel IH]; intros i Hik Hk Hf Hbefore Hat; [lia|].
  cbn [find_loop]. unfold bind at 1. unfold end_ at 1, ret at 1.
  destruct (ls !! i) as [x|] eqn:Hi.
  - assert (Hit : iterator_at this ls i = Iterator_ctor (Some x.1) (Some this)).
    { unfold iterator_at. by rewrite Hi. }
    pose proof (Hstep _ _ Hi) as Hs. rewrite Hit in Hs |- *.
    unfold Iterator_neq, Iterator_eq.
    cbn [node listPtr avlTreePtr Iterator_ctor].
    rewrite bool_decide_eq_false_2 by done. cbn [andb negb].
    unfold bind at 1. unfold load at 1.
    rewrite (is_list_node _ _ _ _ _ Hl Hi). cbn [data].
    destruct (decide (i = k)) as [->|Hne].
    + rewrite (Hat _ Hi). unfold ret, iterator_at. by rewrite Hi.
    + rewrite (Hbefore i x) by (done || lia).
      unfold bind at 1. unfold Iterator_incr. unfold bind at 1.
      rewrite Hs. unfold ret at 1. cbn [snd].
      apply IH; [lia|done|lia| |done].
      intros j y Hj. apply Hbefore. lia.
  - assert (Hit : iterator_at this ls i = Iterator_ctor None (Some this)).
    { unfold iterator_at. by rewrite Hi. }
    rewrite Hit. unfold Iterator_neq, Iterator_eq.
    cbn [node listPtr avlTreePtr Iterator_ctor].
    rewrite !bool_decide_eq_true_2 by done. cbn [andb negb].
    apply lookup_ge_None in Hi.
    assert (i = k) as -> by lia.
    unfold ret, iterator_at. by rewrite (lookup_ge_None_2 ls k) by lia.
Qed.

(** X7. On a well-formed container, with a prefix increment that moves an
    iterator from each position to the next, find returns the iterator at
    the first position of the traversal whose value satisfies the
    predicate, the end iterator when no value does, and leaves the store
    as it is. *)
Theorem find_first_match s this ls (predicate : T → bool) :
  is_list s this ls →
  (∀ j x, ls !! j = Some x →
          prefix_incr (iterator_at this ls j) s = Ret (iterator_at this ls (S j)) s) →
  ∃ k, find prefix_incr this predicate s = Ret (iterator_nth s this k) s
       ∧ (k ≤ length (contents s this))%nat
       ∧ (∀ j v, (j < k)%nat → contents s this !! j = Some v → predicate v = false)
       ∧ (∀ v, contents s this !! k = Some v → predicate v = true)
       ∧ (k = length (contents s this) → iterator_nth s this k = end_of this).
Proof.
  intros Hl Hstep.
  assert (Hk : ∃ k, (k ≤ length ls)%nat
    ∧ (∀ j x, (j < k)%nat → ls !! j = Some x → predicate x.2 = false)
    ∧ (∀ x, ls !! k = Some x → predicate x.2 = true)).
  { clear. induction ls as [|y ls (k & Hk & Hb & Ha)].
    - exists 0%nat. split; [done|]. split; [intros; lia|done].
    - destruct (predicate y.2) eqn:Hy.
      + exists 0%nat. split; [simpl; lia|]. split; [intros; lia|].
        by intros x [= <-].
      + exists (S k). split; [simpl; lia|]. split.
        * intros [|j] x Hj Hx; simpl in Hx; [by injection Hx as <-|].
          apply (Hb j); [lia|done].
        * intros x Hx. by apply Ha. }
  destruct Hk as (k & Hk & Hb & Ha). exists k.
  rewrite (contents_is_list _ _ _ Hl), (iterator_nth_is_list _ _ _ _ Hl).
  rewrite length_fmap.
  split.
  - unfold find. unfold bind at 1. unfold begin_, bind at 1, get_head.
    pose proof Hl as (Hh & Hs & Hnd). rewrite Hh. unfold ret at 1.
    unfold with_fuel.
    replace (Iterator_ctor (first_of ls None) (Some this))
      with (iterator_at this ls 0) by (by destruct ls).
    apply find_loop_spec; try done; [lia| |].
    + unfold fuel_of. pose proof (seg_length _ _ _ _ Hs Hnd). lia.
    + intros j x [_ Hj]. by apply Hb.
  - split; [done|]. split.
    + intros j v Hj Hv. rewrite list_lookup_fmap in Hv.
      destruct (ls !! j) as [x|] eqn:Hx; [|done]. injection Hv as <-. by eapply Hb.
    + split.
      * intros v Hv. rewrite list_lookup_fmap in Hv.
        destruct (ls !! k) as [x|] eqn:Hx; [|done]. injection Hv as <-. by apply Ha.
      * intros ->. unfold iterator_at, end_of.
        by rewrite lookup_ge_None_2 by lia.
Qed.

End Find.

(** The move of operator-- is such a prefix increment. *)
Lemma step_next_advances s this ls j x :
  is_list s this ls → ls !! j = Some x →
  step_next (iterator_at this ls j) s = Ret (iterator_at this ls (S j)) s.
Proof.
  intros Hl Hj. unfold step_next. unfold bind at 1.
  rewrite (Iterator_decr_at s this ls j Hl).
  apply lookup_lt_Some in Hj. by rewrite decide_True by done.
Qed.

End Iteration.

Section Ownership.

Context {T : Type}.
Implicit Types (s : Store T) (ls la lb : list (loc * T)).

Lemma locs_of_insert_at ls i (x : loc * T) :
  locs_of (take i ls ++ x :: drop i ls) = {[x.1]} ∪ locs_of ls.
Proof.
  unfold locs_of. rewrite <- (take_drop i ls) at 3.
  rewrite !fmap_app, fmap_cons, !list_to_set_app_L, list_to_set_cons.
  apply set_eq. intros l. rewrite !elem_of_union. tauto.
Qed.

Lemma locs_of_delete ls i (x : loc * T) :
  NoDup ls.*1 → ls !! i = Some x →
  locs_of (delete i ls) = locs_of ls ∖ {[x.1]}.
Proof.
  intros Hnd Hi. destruct (split_at _ _ _ Hi) as (ls1 & ls2 & E & _ & _ & ->).
  rewrite E in Hnd |- *.
  destruct (NoDup_split _ _ _ Hnd) as (_ & _ & Hx1 & Hx2 & _).
  unfold locs_of. rewrite !fmap_app, fmap_cons, !list_to_set_app_L, list_to_set_cons.
  apply set_eq. intros l.
  rewrite elem_of_difference, !elem_of_union, elem_of_singleton,
    !elem_of_list_to_set.
  split.
  - intros [H|H]; (split; [tauto|]); by intros ->.
  - intros [[H|[H|H]] Hne]; tauto.
Qed.

(** One call on a container that owns every live node. *)
Lemma apply_op_owned s this ls o :
  is_list s this ls → dom (nodes s) = locs_of ls →
  ∃ s' ls',
    (apply_op this o s = Ret tt s'
     ∨ (apply_op this o s = Throw ElementNotFound s' ∧ s' = s))
    ∧ is_list s' this ls' ∧ dom (nodes s') = locs_of ls'.
Proof.
  intros Hl Hdom. destruct o as [v i|i]; unfold apply_op;
    rewrite (iterator_nth_is_list _ _ _ _ Hl).
  - destruct (insert_at_spec _ _ _ v i Hl) as (l & s' & Hrun & _ & Hdom' & Hl' & _).
    exists s', (take i ls ++ (l, v) :: drop i ls). split; [by left|].
    split; [done|]. by rewrite Hdom', locs_of_insert_at, Hdom.
  - destruct (ls !! i) as [x|] eqn:Hi.
    + destruct (remove_at_spec _ _ _ _ _ Hl Hi) as (s' & Hrun & Hdom' & Hl' & _).
      exists s', (delete i ls). split; [by left|]. split; [done|].
      destruct Hl as (_ & _ & Hnd).
      by rewrite Hdom', (locs_of_delete _ _ _ Hnd Hi), Hdom.
    + exists s, ls. split; [|done]. right. split; [|done].
      unfold iterator_at. rewrite Hi. simpl.
      destruct Hl as (Hh & _). eapply remove_end_throws; eauto.
Qed.

Lemma apply_ops_owned s this ls os :
  is_list s this ls → dom (nodes s) = locs_of ls →
  ∃ s' ls', apply_ops this os s = Some s'
    ∧ is_list s' this ls' ∧ dom (nodes s') = locs_of ls'.
Proof.
  revert s ls. induction os as [|o os IH]; intros s ls Hl Hdom.
  - exists s, ls. done.
  - destruct (apply_op_owned _ _ _ o Hl Hdom) as (s1 & ls1 & Hrun & Hl1 & Hdom1).
    destruct (IH _ _ Hl1 Hdom1) as (s' & ls' & Hrun' & ?).
    exists s', ls'. split; [|done]. simpl.
    by destruct Hrun as [->|[-> _]].
Qed.

(** X8. Every store reached from a newly constructed container by
    inserts and removes, with iterators at positions of the container, is
    a well-formed chain that holds every live node: no call runs into
    undefined behaviour, no node is leaked or freed twice, and as many
    nodes are live as the traversal has values.  Any further sequence of
    such calls runs as well. *)
Theorem reachable_chain_owns_nodes this s :
  reachable this s →
  ∃ ls, is_list s this ls
    ∧ dom (nodes s) = locs_of ls
    ∧ size (nodes s) = length (contents s this)
    ∧ ∀ os, ∃ s', apply_ops this os s = Some s'.
Proof.
  intros [os Hos].
  destruct (apply_ops_owned (fresh_store this) this [] os)
    as (s' & ls & Hrun & Hl & Hdom).
  { apply fresh_store_is_list. }
  { unfold locs_of. simpl. apply dom_empty_L. }
  rewrite Hos in Hrun. injection Hrun as <-.
  exists ls. split; [done|]. split; [done|]. split.
  - rewrite (contents_is_list _ _ _ Hl), length_fmap, <- size_dom, Hdom.
    unfold locs_of. destruct Hl as (_ & _ & Hnd).
    by rewrite size_list_to_set, length_fmap.
  - intros os'. destruct (apply_ops_is_list _ _ _ os' Hl) as (s' & ? & ? & _). eauto.
Qed.

Lemma destroy_loop_spec fuel s this ls :
  is_list s this ls → (length ls ≤ fuel)%nat →
  ∃ s', destroy_loop fuel this (Iterator_ctor (first_of ls None) (Some this)) s
        = Ret tt s'
    ∧ is_list s' this []
    ∧ dom (nodes s') = dom (nodes s) ∖ locs_of ls
    ∧ frame this ls s s'.
Proof.
  revert fuel s. induction ls as [|x ls IH]; intros fuel s Hl Hf.
  - exists s. split; [by destruct fuel|]. split; [done|]. split; [|by split].
    unfold locs_of. simpl. by rewrite difference_empty_L.
  - destruct fuel as [|fuel]; [simpl in Hf; lia|].
    destruct (remove_spec s this [] x ls Hl) as (s1 & Hrun & Hdom1 & Hl1 & Hfr1).
    destruct (IH fuel s1 Hl1) as (s' & Hrun' & Hl' & Hdom' & Hfr');
      [simpl in Hf; lia|].
    exists s'. split; [|split; [done|split]].
    + cbn [destroy_loop first_of node Iterator_ctor]. unfold bind at 1.
      simpl in Hrun. rewrite Hrun. unfold bind at 1.
      unfold begin_, bind at 1, get_head. destruct Hl1 as (-> & _).
      unfold ret at 1. exact Hrun'.
    + rewrite Hdom', Hdom1. unfold locs_of. rewrite fmap_cons, list_to_set_cons.
      apply set_eq. intros l.
      rewrite !elem_of_difference, elem_of_union. tauto.
    + eapply frame_trans; [exact Hfr1|exact Hfr'|].
      intros l Hl0. simpl. by right.
Qed.

(** X9. On a well-formed container the destructor returns; it frees the
    nodes of the container, each once, and no other node; the container
    is left empty, and a container that shares no node with it keeps its
    chain and its values. *)
Theorem destructor_frees_own_nodes s this ls :
  is_list s this ls →
  ∃ s', AvlTree_dtor this s = Ret tt s'
    ∧ is_list s' this []
    ∧ contents s' this = []
    ∧ dom (nodes s') = dom (nodes s) ∖ locs_of ls
    ∧ size (nodes s') = (size (nodes s) - length ls)%nat
    ∧ ∀ B lb, B ≠ this → is_list s B lb → separate ls lb →
        is_list s' B lb ∧ contents s' B = contents s B.
Proof.
  intros Hl. pose proof Hl as (Hh & Hs & Hnd).
  destruct (destroy_loop_spec (fuel_of s) s this ls Hl) as (s' & Hrun & Hl' & Hdom & Hfr).
  { unfold fuel_of. pose proof (seg_length _ _ _ _ Hs Hnd). lia. }
  exists s'. split.
  { unfold AvlTree_dtor. unfold bind at 1. unfold begin_, bind at 1, get_head.
    rewrite Hh. unfold ret at 1. exact Hrun. }
  split; [done|]. split; [by rewrite (contents_is_list _ _ _ Hl')|].
  split; [done|]. split.
  - rewrite <- !size_dom, Hdom, size_difference.
    + unfold locs_of. by rewrite size_list_to_set, length_fmap.
    + intros l Hin. unfold locs_of in Hin. apply elem_of_list_to_set in Hin.
      eapply seg_dom; eauto.
  - intros B lb HB HlB Hsep.
    assert (HlB' : is_list s' B lb) by (eapply is_list_frame; eauto).
    split; [done|].
    by rewrite (contents_is_list _ _ _ HlB), (contents_is_list _ _ _ HlB').
Qed.

End Ownership.

Section AssignmentNodes.

Context {T : Type}.
Implicit Types (s : Store T) (ls la lb lp lr : list (loc * T)).

Lemma clear_nodes fuel s this ls :
  is_list s this ls → (length ls < fuel)%nat →
  ∃ s', clear fuel this s = Ret tt s'
    ∧ is_list s' this [] ∧ frame this ls s s'
    ∧ dom (nodes s') = dom (nodes s) ∖ locs_of ls.
Proof.
  revert fuel s. induction ls as [|x ls IH]; intros fuel s Hl Hf.
  - destruct fuel as [|fuel]; [lia|]. exists s.
    pose proof Hl as (Hh & ?). simpl. unfold bind, get_head. rewrite Hh. simpl.
    split; [done|]. split; [done|]. split; [by split|].
    unfold locs_of. simpl. by rewrite difference_empty_L.
  - destruct fuel as [|fuel]; [lia|].
    pose proof Hl as (Hh & _).
    destruct (remove_spec s this [] x ls Hl) as (s1 & Hrun & Hdom1 & Hl1 & Hfr1).
    destruct (IH fuel s1 Hl1) as (s' & Hrun' & Hl' & Hfr' & Hdom');
      [simpl in Hf; lia|].
    exists s'. simpl. unfold bind at 1. unfold get_head at 1. rewrite Hh. simpl.
    unfold begin_. unfold bind at 1. unfold bind at 1. unfold get_head. rewrite Hh.
    simpl. unfold bind at 1. simpl in Hrun. rewrite Hrun.
    split; [done|]. split; [done|]. split.
    + eapply frame_trans; [exact Hfr1|exact Hfr'|].
      intros l Hl0. simpl. by right.
    + rewrite Hdom', Hdom1. unfold locs_of. rewrite fmap_cons, list_to_set_cons.
      apply set_eq. intros l.
      rewrite !elem_of_difference, elem_of_union. tauto.
Qed.

Lemma append_all_nodes fuel s A B lp lr lb :
  A ≠ B → is_list s A (lp ++ lr) → is_list s B lb →
  separate (lp ++ lr) lb → (length lr ≤ fuel)%nat →
  ∃ s' lnew, append_all fuel B (first_of lr None) s = Ret tt s'
    ∧ is_list s' A (lp ++ lr) ∧ is_list s' B (lb ++ lnew)
    ∧ lnew.*2 = lr.*2 ∧ separate (lp ++ lr) (lb ++ lnew)
    ∧ dom (nodes s') = dom (nodes s) ∪ locs_of lnew
    ∧ (∀ l, l ∈ lnew.*1 → l ∉ dom (nodes s)).
Proof.
  intros Hne. revert fuel s lp lb.
  induction lr as [|x lr IH]; intros fuel s lp lb HA HB Hsep Hf.
  - exists s, []. rewrite !app_nil_r in *.
    split; [by destruct fuel|]. repeat (split; [done|]).
    split; [unfold locs_of; simpl; by rewrite union_empty_r_L|].
    intros l Hin. by apply elem_of_nil in Hin.
  - destruct fuel as [|fuel]; [simpl in Hf; lia|].
    destruct (insert_end_spec s B lb x.2 HB)
      as (l & s1 & Hrun & Hfresh & Hdom1 & HB1 & Hfr).
    assert (HA1 : is_list s1 A (lp ++ x :: lr)).
    { eapply is_list_frame; [| exact Hfr | |exact HA]; [done|by apply separate_sym]. }
    assert (Hsep1 : separate (lp ++ x :: lr) (lb ++ [(l, x.2)])).
    { intros l0 Hl0. rewrite fmap_app, elem_of_app. intros [Hin|Hin].
      - by apply (Hsep _ Hl0).
      - simpl in Hin. apply list_elem_of_singleton in Hin as ->.
        apply Hfresh. destruct HA as (_ & HsA & _). eapply seg_dom; eauto. }
    assert (Hx : ∀ s0, is_list s0 A (lp ++ x :: lr) →
               nodes s0 !! x.1
               = Some (mkNode (first_of lr None) (last_of None lp) x.2)).
    { intros s0 (_ & Hs0 & _). by apply seg_app in Hs0 as [_ [? _]]. }
    rewrite (cons_middle x lp lr), app_assoc in HA1, Hsep1.
    destruct (IH fuel s1 (lp ++ [x]) (lb ++ [(l, x.2)]) HA1 HB1 Hsep1)
      as (s' & lnew & Hrun' & HA' & HB' & Hvals & Hsep' & Hdom' & Hnew');
      [simpl in Hf; lia|].
    exists s', ((l, x.2) :: lnew).
    rewrite (cons_middle x lp lr), app_assoc.
    rewrite (cons_middle (l, x.2) lb lnew), app_assoc.
    split; [|split; [done|split; [done|split; [|split; [done|split]]]]].
    + cbn [append_all first_of]. unfold bind at 1. unfold load at 1.
      rewrite (Hx s HA). unfold bind at 1. unfold end_ at 1, ret at 1.
      unfold bind at 1. cbn [data]. fold (end_of B). rewrite Hrun.
      unfold bind at 1. unfold load at 1.
      rewrite <- app_assoc, <- cons_middle in HA1. rewrite (Hx s1 HA1).
      exact Hrun'.
    + rewrite !fmap_cons. by rewrite Hvals.
    + rewrite Hdom', Hdom1. unfold locs_of. rewrite fmap_cons, list_to_set_cons.
      apply set_eq. intros l0. rewrite !elem_of_union. cbn [fst]. tauto.
    + intros l0. rewrite fmap_cons, elem_of_cons. intros [->|Hin]; [done|].
      intros Hd. apply (Hnew' _ Hin). rewrite Hdom1. apply elem_of_union. by right.
Qed.

(** X10. Between two distinct well-formed containers that share no node,
    the two loops of operator= (lines 270-277) run to their end, free every
    node B held and allocate one node for each element of A: behind them
    the live nodes are those that were live and did not belong to B,
    together with the new nodes of B, and B has as many nodes as A. *)
Theorem assign_replaces_nodes s A B la lb :
  A ≠ B → is_list s A la → is_list s B lb → separate la lb →
  ∃ s' lb', AvlTree_assign_loops B A s = Ret tt s'
    ∧ is_list s' A la ∧ is_list s' B lb'
    ∧ length lb' = length la
    ∧ dom (nodes s') = (dom (nodes s) ∖ locs_of lb) ∪ locs_of lb'
    ∧ (size (nodes s') + length lb = size (nodes s) + length la)%nat.
Proof.
  intros Hne HA HB Hsep.
  destruct (clear_nodes (fuel_of s) s B lb HB) as (s1 & Hrun1 & HB1 & Hfr1 & Hdom1).
  { unfold fuel_of. destruct HB as (_ & Hs & Hnd).
    pose proof (seg_length _ _ _ _ Hs Hnd). lia. }
  assert (HA1 : is_list s1 A la).
  { eapply is_list_frame; [|exact Hfr1| |exact HA]; [done|by apply separate_sym]. }
  destruct (append_all_nodes (fuel_of s1) s1 A B [] la [] Hne HA1 HB1)
    as (s' & lnew & Hrun2 & HA' & HB' & Hvals & Hsep' & Hdom' & Hnew).
  { intros l _ Hin. simpl in Hin. by apply elem_of_nil in Hin. }
  { unfold fuel_of. destruct HA1 as (_ & Hs & Hnd).
    pose proof (seg_length _ _ _ _ Hs Hnd). lia. }
  simpl in HA', HB', Hsep'.
  assert (Hlen : length lnew = length la).
  { by rewrite <- (length_fmap snd lnew), Hvals, length_fmap. }
  exists s', lnew. split.
  { unfold AvlTree_assign_loops.
    unfold bind at 1. unfold with_fuel at 1. rewrite Hrun1.
    unfold bind at 1. unfold get_head.
    destruct HA1 as (-> & _). unfold with_fuel. exact Hrun2. }
  split; [done|]. split; [done|]. split; [done|].
  assert (Hd : dom (nodes s') = dom (nodes s) ∖ locs_of lb ∪ locs_of lnew).
  { by rewrite Hdom', Hdom1. }
  split; [done|].
  assert (Hsub : locs_of lb ⊆ dom (nodes s)).
  { intros l Hin. unfold locs_of in Hin. apply elem_of_list_to_set in Hin.
    destruct HB as (_ & Hs & _). eapply seg_dom; eauto. }
  assert (Hdisj : dom (nodes s) ∖ locs_of lb ## locs_of lnew).
  { intros l Hl Hin. unfold locs_of in Hin. apply elem_of_list_to_set in Hin.
    apply (Hnew _ Hin). by rewrite Hdom1. }
  rewrite <- !size_dom, Hd, size_union by done.
  rewrite size_difference by done.
  pose proof (subseteq_size _ _ Hsub) as Hle.
  destruct HB as (_ & _ & HndB), HB' as (_ & _ & HndB').
  unfold locs_of in *. rewrite !size_list_to_set, !length_fmap in * by done.
  lia.
Qed.

(** X14. The copy construction of a container from a well-formed
    container A, at an address other than that of A, frees no node and
    allocates one node for each element of A: the nodes that were live
    stay live, and the new container holds the values of A, in order, on
    as many newly allocated nodes. *)
Theorem copy_ctor_allocates_per_element s A C la :
  C ≠ A → is_list s A la →
  ∃ s' lc, AvlTree_copy_ctor C A s = Ret tt s'
    ∧ is_list s' A la ∧ is_list s' C lc
    ∧ contents s' C = contents s A
    ∧ (∀ l, l ∈ lc.*1 → l ∉ dom (nodes s))
    ∧ dom (nodes s') = dom (nodes s) ∪ locs_of lc
    ∧ size (nodes s') = (size (nodes s) + length la)%nat.
Proof.
  intros Hne HA.
  set (s1 := mkStore (nodes s) (<[C := None]> (heads s))).
  assert (HA1 : is_list s1 A la).
  { destruct HA as (Hh & Hs & Hnd). split; [|done]. simpl.
    by rewrite lookup_insert_ne. }
  assert (HC1 : is_list s1 C []).
  { split; [|split]; simpl; [by rewrite lookup_insert_eq|done|apply NoDup_nil_2]. }
  destruct (append_all_nodes (fuel_of s1) s1 A C [] la [])
    as (s' & lnew & Hrun2 & HA' & HC' & Hvals & Hsep' & Hdom' & Hnew);
    [by intros ->|done|done| | |].
  { intros l _ Hin. simpl in Hin. by apply elem_of_nil in Hin. }
  { unfold fuel_of. destruct HA1 as (_ & Hs & Hnd).
    pose proof (seg_length _ _ _ _ Hs Hnd). lia. }
  simpl in HA', HC', Hsep'.
  exists s', lnew. split.
  { unfold AvlTree_copy_ctor. unfold bind at 1. unfold AvlTree_ctor. fold s1.
    unfold bind at 1. unfold get_head.
    destruct HA1 as (-> & _). unfold with_fuel. exact Hrun2. }
  split; [done|]. split; [done|].
  split. { by rewrite (contents_is_list _ _ _ HC'), (contents_is_list _ _ _ HA). }
  split; [exact Hnew|]. split; [exact Hdom'|].
  rewrite <- !size_dom, Hdom'. cbn [nodes s1].
  rewrite size_union.
  - destruct HC' as (_ & _ & Hnd). unfold locs_of.
    rewrite size_list_to_set, length_fmap by done.
    by rewrite <- (length_fmap snd lnew), Hvals, length_fmap.
  - intros l Hl Hin. unfold locs_of in Hin. apply elem_of_list_to_set in Hin.
    by apply (Hnew _ Hin).
Qed.

End AssignmentNodes.

Section Swap.

Context {T : Type}.
Implicit Types (s : Store T) (ls : list (loc * T)) (h : gmap loc (Node T)).

Lemma first_of_set_data ls j (y : loc * T) d after :
  ls !! j = Some y → first_of (<[j := (y.1, d)]> ls) after = first_of ls after.
Proof. destruct ls as [|x ls], j as [|j]; try done. by intros [= ->]. Qed.

Lemma fst_set_data ls j (y : loc * T) d :
  ls !! j = Some y → (<[j := (y.1, d)]> ls).*1 = ls.*1.
Proof.
  intros Hj. rewrite list_fmap_insert. apply list_insert_id.
  by rewrite list_lookup_fmap, Hj.
Qed.

(** Writing the data member of the [j]-th node of a chain. *)
Lemma seg_set_data h before ls after j (y : loc * T) n d :
  seg h before ls after → NoDup ls.*1 → ls !! j = Some y →
  h !! y.1 = Some n →
  seg (<[y.1 := with_data n d]> h) before (<[j := (y.1, d)]> ls) after.
Proof.
  revert before j. induction ls as [|x ls IH]; intros before j Hs Hnd Hj Hn; [done|].
  destruct Hs as [Hx Hs]. rewrite fmap_cons in Hnd.
  apply NoDup_cons in Hnd as [Hx' Hnd].
  destruct j as [|j]; simpl in Hj.
  - injection Hj as ->. simpl. split.
    + rewrite lookup_insert_eq. rewrite Hn in Hx. injection Hx as ->. done.
    + by apply seg_insert_other.
  - simpl. split.
    + rewrite lookup_insert_ne.
      * by rewrite (first_of_set_data _ _ _ _ _ Hj).
      * intros E. apply Hx'. rewrite <- E.
        apply list_elem_of_fmap. exists y. split; [done|].
        by eapply list_elem_of_lookup_2.
    + by apply IH.
Qed.

Lemma is_list_set_data s this ls j (y : loc * T) n d :
  is_list s this ls → ls !! j = Some y → nodes s !! y.1 = Some n →
  is_list (mkStore (<[y.1 := with_data n d]> (nodes s)) (heads s)) this
          (<[j := (y.1, d)]> ls).
Proof.
  intros (Hh & Hs & Hnd) Hj Hn. split; [|split]; cbn [nodes heads].
  - by rewrite (first_of_set_data _ _ _ _ _ Hj).
  - by apply seg_set_data.
  - by rewrite (fst_set_data _ _ _ _ Hj).
Qed.

(** X11. On a well-formed container, swapNodes on the nodes at positions
    [i] and [j] returns and exchanges the two stored values: the traversal
    has the values of the two positions exchanged, every node stays where
    it is in the chain, and no other node is written. *)
Theorem swapNodes_exchanges_values s this ls i j (x y : loc * T) :
  is_list s this ls → ls !! i = Some x → ls !! j = Some y →
  ∃ s', swapNodes x.1 y.1 s = Ret tt s'
    ∧ is_list s' this (<[i := (x.1, y.2)]> (<[j := (y.1, x.2)]> ls))
    ∧ contents s' this = <[i := y.2]> (<[j := x.2]> (contents s this))
    ∧ heads s' = heads s
    ∧ (∀ l, l ≠ x.1 → l ≠ y.1 → nodes s' !! l = nodes s !! l).
Proof.
  intros Hl Hi Hj.
  destruct (is_list_data _ _ _ _ Hl (list_elem_of_lookup_2 _ _ _ Hi))
    as (nx & Hnx & Hdx).
  destruct (is_list_data _ _ _ _ Hl (list_elem_of_lookup_2 _ _ _ Hj))
    as (ny & Hny & Hdy).
  pose proof (is_list_set_data s this ls j y ny x.2 Hl Hj Hny) as Hl1.
  set (s1 := mkStore (<[y.1 := with_data ny x.2]> (nodes s)) (heads s)) in *.
  assert (Hi1 : ∃ x', <[j := (y.1, x.2)]> ls !! i = Some x' ∧ x'.1 = x.1).
  { destruct (decide (i = j)) as [->|Hne].
    - exists (y.1, x.2). split.
      + apply list_lookup_insert_eq. by eapply lookup_lt_Some.
      + rewrite Hi in Hj. by injection Hj as ->.
    - exists x. split; [|done]. by rewrite list_lookup_insert_ne. }
  destruct Hi1 as (x' & Hi1 & Hx').
  destruct (is_list_data _ _ _ _ Hl1 (list_elem_of_lookup_2 _ _ _ Hi1))
    as (n1 & Hn1 & _).
  pose proof (is_list_set_data s1 this _ i x' n1 y.2 Hl1 Hi1 Hn1) as Hl2.
  rewrite Hx' in Hl2, Hn1.
  exists (mkStore (<[x.1 := with_data n1 y.2]> (nodes s1)) (heads s1)). split.
  { unfold swapNodes, bind, load, store_data. rewrite Hny, Hnx.
    cbn [nodes heads]. rewrite Hny. cbn [nodes heads]. rewrite Hdx.
    unfold s1 in Hn1. cbn [nodes] in Hn1. rewrite Hn1. rewrite Hdy.
    reflexivity. }
  split; [exact Hl2|]. split.
  { rewrite (contents_is_list _ _ _ Hl2), (contents_is_list _ _ _ Hl).
    by rewrite !list_fmap_insert. }
  split; [done|].
  intros l Hlx Hly. cbn [nodes s1]. by rewrite !lookup_insert_ne.
Qed.

Lemma swapNodes_run s (a b : loc) na nb :
  nodes s !! a = Some na → nodes s !! b = Some nb →
  swapNodes a b s
  = Ret tt (mkStore (<[a := with_data na (data nb)]>
                       (<[b := with_data nb (data na)]> (nodes s)))
                    (heads s)).
Proof.
  intros Ha Hb. unfold swapNodes, bind, load, store_data.
  rewrite Hb, Ha. cbn [nodes heads]. rewrite Hb. cbn [nodes heads].
  destruct (decide (a = b)) as [->|Hne].
  - rewrite lookup_insert_eq. rewrite Ha in Hb. by injection Hb as ->.
  - by rewrite lookup_insert_ne, Ha by done.
Qed.

(** X12. For two live nodes, which may be the same one, swapNodes applied
    twice gives back the store it started from, and the order of the two
    nodes in the call makes no difference to the result. *)
Theorem swapNodes_twice_restores s (a b : loc) na nb :
  nodes s !! a = Some na → nodes s !! b = Some nb →
  (swapNodes a b;; swapNodes a b) s = Ret tt s
  ∧ swapNodes a b s = swapNodes b a s.
Proof.
  intros Ha Hb.
  rewrite (swapNodes_run s b a nb na Hb Ha).
  unfold bind. rewrite (swapNodes_run s a b na nb Ha Hb).
  destruct s as [h hd]. cbn [nodes heads] in *.
  destruct na as [al ar ad], nb as [bl br bd].
  destruct (decide (a = b)) as [->|Hne].
  - rewrite Ha in Hb. injection Hb as -> -> ->. split.
    + erewrite swapNodes_run;
        [|cbn [nodes]; apply lookup_insert_eq|cbn [nodes]; apply lookup_insert_eq].
      cbn [nodes heads data with_data left right].
      rewrite !insert_insert_eq. by rewrite insert_id.
    + done.
  - split.
    + erewrite swapNodes_run;
        [|cbn [nodes]; apply lookup_insert_eq
         |cbn [nodes]; rewrite lookup_insert_ne by done; apply lookup_insert_eq].
      cbn [nodes heads data with_data left right]. do 2 f_equal.
      apply map_eq. intros l.
      destruct (decide (l = a)) as [->|Hla];
        [by rewrite lookup_insert_eq|rewrite lookup_insert_ne by done].
      destruct (decide (l = b)) as [->|Hlb];
        [by rewrite lookup_insert_eq|by rewrite !lookup_insert_ne by done].
    + do 2 f_equal. by apply insert_insert_ne.
Qed.

End Swap.

Section IteratorValidity.

Context {T : Type}.
Implicit Types (s : Store T) (ls : list (loc * T)).

(** X13. On a well-formed container, a call of insert or remove, other
    than the removal of the node an iterator stands at, leaves that
    iterator valid: it is the iterator at the position the node has moved
    to, one further for an insert at or before it and one back for a
    remove before it, and it dereferences to the same value. *)
Theorem iterator_survives_call s this ls (o : @op T) j (y : loc * T) :
  is_list s this ls → ls !! j = Some y → o ≠ Remove j →
  ∃ s', (apply_op this o s = Ret tt s'
         ∨ (apply_op this o s = Throw ElementNotFound s' ∧ s' = s))
    ∧ iterator_nth s' this (position_after o j) = iterator_nth s this j
    ∧ Iterator_deref (iterator_nth s this j) s' = Ret y.2 s'.
Proof.
  intros Hl Hj Ho.
  assert (Hfin : ∀ s' ls' j', is_list s' this ls' → ls' !! j' = Some y →
    iterator_nth s' this j' = iterator_nth s this j
    ∧ Iterator_deref (iterator_nth s this j) s' = Ret y.2 s').
  { intros s' ls' j' Hl' Hj'.
    rewrite (iterator_nth_is_list _ _ _ _ Hl), (iterator_nth_is_list _ _ _ _ Hl').
    unfold iterator_at. rewrite Hj, Hj'. split; [done|].
    destruct (is_list_data _ _ _ _ Hl' (list_elem_of_lookup_2 _ _ _ Hj'))
      as (n & Hn & Hd).
    unfold Iterator_deref, bind, load. simpl. by rewrite Hn, Hd. }
  pose proof (lookup_lt_Some _ _ _ Hj) as Hlen.
  destruct o as [v i|i]; unfold apply_op; rewrite (iterator_nth_is_list _ _ _ _ Hl).
  - destruct (insert_at_spec _ _ _ v i Hl) as (l & s' & Hrun & _ & _ & Hl' & _).
    exists s'. split; [by left|].
    apply (Hfin s' _ _ Hl'). unfold position_after.
    destruct (decide (i ≤ j)%nat) as [Hle|Hgt].
    + rewrite lookup_app_r by (rewrite length_take; lia).
      rewrite length_take. replace (i `min` length ls)%nat with i by lia.
      replace (S j - i)%nat with (S (j - i)) by lia. simpl.
      rewrite lookup_drop. by replace (i + (j - i))%nat with j by lia.
    + rewrite lookup_app_l by (rewrite length_take; lia).
      by rewrite lookup_take_lt by lia.
  - destruct (ls !! i) as [x|] eqn:Hi.
    + destruct (remove_at_spec _ _ _ _ _ Hl Hi) as (s' & Hrun & _ & Hl' & _).
      exists s'. split; [by left|].
      apply (Hfin s' _ _ Hl'). unfold position_after.
      assert (i ≠ j) by (intros ->; done).
      destruct (decide (i < j)%nat) as [Hlt|Hge].
      * rewrite list_lookup_delete_ge by lia.
        by replace (S (pred j)) with j by lia.
      * by rewrite list_lookup_delete_lt by lia.
    + exists s. split.
      * right. split; [|done]. unfold iterator_at. rewrite Hi. simpl.
        destruct Hl as (Hh & _). eapply remove_end_throws; eauto.
      * apply lookup_ge_None in Hi.
        apply (Hfin s ls _ Hl). unfold position_after.
        by rewrite decide_False by lia.
Qed.

End IteratorValidity.

(** ** The further properties at concrete stores *)

Section FurtherWitnesses.

Local Abbreviation L132 := [(1%positive, 1); (2%positive, 3); (3%positive, 2)].
Local Abbreviation LA := [(1%positive, 1); (2%positive, 2)].
Local Abbreviation LB := [(3%positive, 7)].

Lemma separate_LA_LB : separate LA LB.
Proof.
  intros l Hl Hl'. simpl in Hl, Hl'.
  apply list_elem_of_singleton in Hl' as ->.
  apply (bool_decide_pack _) in Hl. vm_compute in Hl. exact Hl.
Defined.

(** X2 at the chain 1, 3, 2: insert(5) with the iterator at the second
    node. *)
Lemma insert_places_at_iterator_witness :
  is_list s132 A0 L132
  ∧ ∃ l s', insert A0 5 (iterator_nth s132 A0 1) s132 = Ret tt s'
      ∧ (l ∉ dom (nodes s132))
      ∧ (∃ n, nodes s' !! l = Some n ∧ data n = 5)
      ∧ is_list s' A0 (take 1 L132 ++ (l, 5) :: drop 1 L132)
      ∧ contents s' A0
        = take 1 (contents s132 A0) ++ 5 :: drop 1 (contents s132 A0)
      ∧ length (contents s' A0) = S (length (contents s132 A0))
      ∧ (∀ l0 n, nodes s132 !! l0 = Some n →
                 ∃ n', nodes s' !! l0 = Some n' ∧ data n' = data n).
Proof.
  split; [exact s132_list|].
  apply (insert_places_at_iterator s132 A0 L132 5 1). exact s132_list.
Defined.

(** X3 at the chain 1, 3, 2 and the second position. *)
Lemma insert_remove_round_trip_witness :
  is_list s132 A0 L132
  ∧ ∃ s1, insert A0 5 (iterator_nth s132 A0 1) s132 = Ret tt s1
      ∧ (length (contents s1 A0) = S (length (contents s132 A0)))
      ∧ remove A0 (iterator_nth s1 A0 (1 `min` length L132)) s1 = Ret tt s132.
Proof.
  split; [exact s132_list|].
  apply (insert_remove_round_trip s132 A0 L132 5 1). exact s132_list.
Defined.

(** X4 at the chain 1, 3, 2 and the second position. *)
Lemma deref_at_position_witness :
  is_list s132 A0 L132
  ∧ Iterator_deref (iterator_nth s132 A0 1) s132
    = match contents s132 A0 !! 1%nat with
      | Some v => Ret v s132
      | None => Throw ElementNotFound s132
      end.
Proof.
  split; [exact s132_list|].
  apply (deref_at_position s132 A0 L132 1). exact s132_list.
Defined.

(** X5 at the chain 1, 3, 2 and the last position. *)
Lemma decrement_moves_to_next_witness :
  is_list s132 A0 L132
  ∧ Iterator_decr (iterator_nth s132 A0 2) s132
    = if decide (2 < length L132)%nat
      then Ret (iterator_nth s132 A0 3, iterator_nth s132 A0 3) s132
      else Throw IllegealOperationException s132.
Proof.
  split; [exact s132_list|].
  apply (decrement_moves_to_next s132 A0 L132 2). exact s132_list.
Defined.

(** X6 at the chain 1, 3, 2, for begin and end. *)
Lemma iterators_equal_iff_same_position_witness :
  is_list s132 A0 L132 ∧ (0 ≤ length L132)%nat ∧ (3 ≤ length L132)%nat
  ∧ ((Iterator_eq (iterator_nth s132 A0 0) (iterator_nth s132 A0 3) = true
      ↔ 0%nat = 3%nat)
     ∧ Iterator_neq (iterator_nth s132 A0 0) (iterator_nth s132 A0 3)
       = negb (Iterator_eq (iterator_nth s132 A0 0) (iterator_nth s132 A0 3))
     ∧ (∃ b e, begin_ A0 s132 = Ret b s132 ∧ end_ A0 s132 = Ret e s132
               ∧ (Iterator_eq b e = true ↔ contents s132 A0 = []))
     ∧ (∀ other nd, other ≠ Some A0 →
          Iterator_eq (iterator_nth s132 A0 0) (Iterator_ctor nd other) = false)).
Proof.
  split; [exact s132_list|]. split; [simpl; lia|]. split; [simpl; lia|].
  apply (iterators_equal_iff_same_position s132 A0 L132 0 3);
    [exact s132_list|simpl; lia|simpl; lia].
Defined.

(** X7 at the chain 1, 3, 2, with the move of operator-- as the prefix
    increment and the predicate 2 < v. *)
Lemma find_first_match_witness :
  is_list s132 A0 L132
  ∧ (∀ j x, L132 !! j = Some x →
            step_next (iterator_at A0 L132 j) s132
            = Ret (iterator_at A0 L132 (S j)) s132)
  ∧ ∃ k, find step_next A0 (fun v => 2 <? v) s132
         = Ret (iterator_nth s132 A0 k) s132
       ∧ (k ≤ length (contents s132 A0))%nat
       ∧ (∀ j v, (j < k)%nat → contents s132 A0 !! j = Some v →
                 (2 <? v) = false)
       ∧ (∀ v, contents s132 A0 !! k = Some v → (2 <? v) = true)
       ∧ (k = length (contents s132 A0) → iterator_nth s132 A0 k = end_of A0).
Proof.
  assert (Hstep : ∀ j x, L132 !! j = Some x →
            step_next (iterator_at A0 L132 j) s132
            = Ret (iterator_at A0 L132 (S j)) s132).
  { intros [|[|[|j]]] x Hj; try discriminate Hj; reflexivity. }
  split; [exact s132_list|]. split; [exact Hstep|].
  apply (find_first_match step_next s132 A0 L132 (fun v => 2 <? v));
    [exact s132_list|exact Hstep].
Defined.

(** X8 at the store reached by insert(1), insert(3), insert(2). *)
Lemma reachable_chain_owns_nodes_witness :
  reachable A0 s132
  ∧ ∃ ls, is_list s132 A0 ls
      ∧ dom (nodes s132) = locs_of ls
      ∧ size (nodes s132) = length (contents s132 A0)
      ∧ ∀ os, ∃ s', apply_ops A0 os s132 = Some s'.
Proof.
  assert (Hr : reachable A0 s132).
  { exists (appends [1; 3; 2]). vm_compute. reflexivity. }
  split; [exact Hr|]. apply (reachable_chain_owns_nodes A0 s132). exact Hr.
Defined.

(** X9 at the store with the containers 1, 2 and 7: the destructor of the
    first. *)
Lemma destructor_frees_own_nodes_witness :
  is_list s_two A0 LA
  ∧ ∃ s', AvlTree_dtor A0 s_two = Ret tt s'
      ∧ is_list s' A0 []
      ∧ contents s' A0 = []
      ∧ dom (nodes s') = dom (nodes s_two) ∖ locs_of LA
      ∧ size (nodes s') = (size (nodes s_two) - length LA)%nat
      ∧ ∀ B lb, B ≠ A0 → is_list s_two B lb → separate LA lb →
          is_list s' B lb ∧ contents s' B = contents s_two B.
Proof.
  split; [exact s_two_list_A|].
  apply (destructor_frees_own_nodes s_two A0 LA). exact s_two_list_A.
Defined.

(** X10 at the store with the containers 1, 2 and 7. *)
Lemma assign_replaces_nodes_witness :
  A0 ≠ B0 ∧ is_list s_two A0 LA ∧ is_list s_two B0 LB ∧ separate LA LB
  ∧ ∃ s' lb', AvlTree_assign_loops B0 A0 s_two = Ret tt s'
      ∧ is_list s' A0 LA ∧ is_list s' B0 lb'
      ∧ length lb' = length LA
      ∧ dom (nodes s') = (dom (nodes s_two) ∖ locs_of LB) ∪ locs_of lb'
      ∧ (size (nodes s') + length LB = size (nodes s_two) + length LA)%nat.
Proof.
  split; [done|]. split; [exact s_two_list_A|]. split; [exact s_two_list_B|].
  split; [exact separate_LA_LB|].
  apply (assign_replaces_nodes s_two A0 B0 LA LB);
    [done|exact s_two_list_A|exact s_two_list_B|exact separate_LA_LB].
Defined.

(** X14 at the store with the containers 1, 2 and 7: a copy of the first
    at a third address. *)
Lemma copy_ctor_allocates_per_element_witness :
  3%positive ≠ A0 ∧ is_list s_two A0 LA
  ∧ ∃ s' lc, AvlTree_copy_ctor 3%positive A0 s_two = Ret tt s'
      ∧ is_list s' A0 LA ∧ is_list s' 3%positive lc
      ∧ contents s' 3%positive = contents s_two A0
      ∧ (∀ l, l ∈ lc.*1 → l ∉ dom (nodes s_two))
      ∧ dom (nodes s') = dom (nodes s_two) ∪ locs_of lc
      ∧ size (nodes s') = (size (nodes s_two) + length LA)%nat.
Proof.
  split; [done|]. split; [exact s_two_list_A|].
  apply (copy_ctor_allocates_per_element s_two A0 3%positive LA);
    [done|exact s_two_list_A].
Defined.

(** X11 at the chain 1, 3, 2: the first and the last node. *)
Lemma swapNodes_exchanges_values_witness :
  is_list s132 A0 L132
  ∧ L132 !! 0%nat = Some (1%positive, 1)
  ∧ L132 !! 2%nat = Some (3%positive, 2)
  ∧ ∃ s', swapNodes 1%positive 3%positive s132 = Ret tt s'
      ∧ is_list s' A0 (<[0%nat := (1%positive, 2)]> (<[2%nat := (3%positive, 1)]> L132))
      ∧ contents s' A0 = <[0%nat := 2]> (<[2%nat := 1]> (contents s132 A0))
      ∧ heads s' = heads s132
      ∧ (∀ l, l ≠ 1%positive → l ≠ 3%positive → nodes s' !! l = nodes s132 !! l).
Proof.
  split; [exact s132_list|]. split; [reflexivity|]. split; [reflexivity|].
  apply (swapNodes_exchanges_values s132 A0 L132 0 2 (1%positive, 1) (3%positive, 2));
    [exact s132_list|reflexivity|reflexivity].
Defined.

(** X12 at the first and the last node of the chain 1, 3, 2. *)
Lemma swapNodes_twice_restores_witness :
  nodes s132 !! 1%positive = Some (mkNode (Some 2%positive) None 1)
  ∧ nodes s132 !! 3%positive = Some (mkNode None (Some 2%positive) 2)
  ∧ ((swapNodes 1%positive 3%positive;; swapNodes 1%positive 3%positive) s132
     = Ret tt s132
     ∧ swapNodes 1%positive 3%positive s132 = swapNodes 3%positive 1%positive s132).
Proof.
  split; [reflexivity|]. split; [reflexivity|].
  apply (swapNodes_twice_restores s132 1%positive 3%positive
           (mkNode (Some 2%positive) None 1) (mkNode None (Some 2%positive) 2));
    reflexivity.
Defined.

(** X13 at the chain 1, 3, 2: the iterator at the last node and an insert
    at the front. *)
Lemma iterator_survives_call_witness :
  is_list s132 A0 L132
  ∧ L132 !! 2%nat = Some (3%positive, 2)
  ∧ Insert 9 0 ≠ Remove 2
  ∧ ∃ s', (apply_op A0 (Insert 9 0) s132 = Ret tt s'
           ∨ (apply_op A0 (Insert 9 0) s132 = Throw ElementNotFound s' ∧ s' = s132))
      ∧ iterator_nth s' A0 (position_after (Insert 9 0) 2) = iterator_nth s132 A0 2
      ∧ Iterator_deref (iterator_nth s132 A0 2) s' = Ret 2 s'.
Proof.
  split; [exact s132_list|]. split; [reflexivity|]. split; [discriminate|].
  apply (iterator_survives_call s132 A0 L132 (Insert 9 0) 2 (3%positive, 2));
    [exact s132_list|reflexivity|discriminate].
Defined.

End FurtherWitnesses.
